(** * Verification of the normal estimator and colour utilities of global_l0

    The development embeds

    - [codelibrary/visualization/color/rgb32_color.h] (class [RGB32Color]),
    - the 2D PCA normal estimation header ([PCAEstimateNormal],
      [PCAEstimateNormals], [OrientationAwarePCAEstimateNormals]),

    and states the properties of the specification over these embeddings.

    Conventions.
    - A C++ [int] is a [Z] in the range [-2^31, 2^31); operations that can
      leave the range are wrapped explicitly ([to_int]).
    - A [uint8_t] is a [Z] in the range [0, 256) ([to_uint8] is the cast).
    - The floating point type [T] of the PCA templates is idealised as the
      type [R] of real numbers: every arithmetic operation is exact.
    - A failing [assert] and an out-of-range index abort the call; a call
      that aborts returns [None]. *)

From Stdlib Require Import ZArith Reals Lra Lia List Bool.
From stdpp Require Import list.
From coqutil Require Import Z.bitblast.
Import ListNotations.

(* ===================================================================== *)
(** * Part I: definitions                                                 *)
(* ===================================================================== *)

(** ** rgb32_color.h *)

Module RGB32.
Local Open Scope Z_scope.

(** [static_cast<uint8_t>(v)]: reduction modulo 2^8. *)
Definition to_uint8 (v : Z) : Z := v mod 256.

(** Wrap-around of a mathematical integer to a 32-bit signed [int]. *)
Definition to_int (v : Z) : Z := (v + 2 ^ 31) mod 2 ^ 32 - 2 ^ 31.

(** [x << n] and [x >> n] on [int]: the left shift wraps modulo 2^32, the
    right shift is arithmetic (it keeps the sign). *)
Definition shl (x n : Z) : Z := to_int (Z.shiftl x n).
Definition shr (x n : Z) : Z := Z.shiftr x n.

(** The four private members [red_], [green_], [blue_], [alpha_]. *)
Record RGB32Color : Type := mkRGB32Color {
  red_   : Z;
  green_ : Z;
  blue_  : Z;
  alpha_ : Z
}.

(** The range of a [uint8_t] member ("From 0 to 255"). *)
Definition uint8 (v : Z) : Prop := 0 <= v < 256.

(** Every member of a colour is a [uint8_t]. *)
Definition wf (c : RGB32Color) : Prop :=
  uint8 (red_ c) /\ uint8 (green_ c) /\ uint8 (blue_ c) /\ uint8 (alpha_ c).

(** [explicit RGB32Color(int rgb)]. *)
Definition of_int (rgb : Z) : RGB32Color :=
  {| alpha_ := to_uint8 (shr rgb 24);
     red_   := to_uint8 (Z.land (shr rgb 16) 255);
     green_ := to_uint8 (Z.land (shr rgb 8) 255);
     blue_  := to_uint8 (Z.land rgb 255) |}.

(** [int ToGrayScale() const]; [/] on [int] truncates towards zero. *)
Definition ToGrayScale (c : RGB32Color) : Z :=
  Z.quot (red_ c * 11 + green_ c * 16 + blue_ c * 5) 32.

(** [int ToInt() const]. *)
Definition ToInt (c : RGB32Color) : Z :=
  Z.lor (Z.lor (Z.lor (shl (alpha_ c) 24) (shl (red_ c) 16))
               (shl (green_ c) 8))
        (blue_ c).

(** [bool operator == (const RGB32Color& color) const]. *)
Definition eqb (c d : RGB32Color) : bool :=
  (red_ c =? red_ d) && (green_ c =? green_ d) &&
  (blue_ c =? blue_ d) && (alpha_ c =? alpha_ d).

(** [bool operator != (const RGB32Color& color) const]. *)
Definition neqb (c d : RGB32Color) : bool := negb (eqb c d).

(** The value range of a C++ [int]. *)
Definition int32 (v : Z) : Prop := - 2 ^ 31 <= v < 2 ^ 31.

End RGB32.

(** ** The 2D PCA normal estimation header *)

Module PCA.
Local Open Scope R_scope.

(** Abort-on-failure sequencing: [None] is an aborted call. *)
Notation "'let?' x ':=' e 'in' k" :=
  (match e with Some x => k | None => None end)
  (at level 10, x name, e at level 100, k at level 200, only parsing).

(** [Point2D<T>] and [Vector2D<T>] with members [x] and [y]. *)
Record Point2D : Type := mkPoint2D { px : R; py : R }.
Record Vector2D : Type := mkVector2D { vx : R; vy : R }.

(** Modelled from the spec: [operator*] of two [Vector2D] (the header that
    declares it is not among the sources) is their dot product. *)
Definition dot (u v : Vector2D) : R := vx u * vx v + vy u * vy v.

(** Modelled from the spec: unary [operator-] of [Vector2D] (declared in
    the same absent header) negates both members. *)
Definition neg (v : Vector2D) : Vector2D := mkVector2D (- vx v) (- vy v).

(** Modelled from the spec: a default-constructed [Vector2D] (what
    [resize] appends) is the zero vector. *)
Definition default_vector : Vector2D := mkVector2D 0 0.

(** [for (int i = start; i < start + count; ++i) body], where the body can
    abort. *)
Fixpoint for_loop {S : Type} (body : nat -> S -> option S)
    (start count : nat) (s : S) : option S :=
  match count with
  | O => Some s
  | Datatypes.S count' =>
      let? s' := body start s in for_loop body (Datatypes.S start) count' s'
  end.

(** The running values [a], [b], [c], [i], [sum] of the accumulation loop
    of [PCAEstimateNormal]. *)
Record Moments : Type := mkMoments {
  m_a : R; m_b : R; m_c : R; m_i : nat; m_sum : R
}.

(** One iteration of [for (const Point2D<T>& p : points)]; [weights[i++]]
    is in range because the sizes were asserted equal. *)
Definition accumulate (centroid : Point2D) (weights : list R)
    (m : Moments) (p : Point2D) : Moments :=
  let x := px p - px centroid in
  let y := py p - py centroid in
  let w := nth (m_i m) weights 0 in
  {| m_a := m_a m + w * x * x;
     m_b := m_b m + w * x * y;
     m_c := m_c m + w * y * y;
     m_i := Datatypes.S (m_i m);
     m_sum := m_sum m + w |}.

(** The part of [PCAEstimateNormal] after the normalisation by [1 / sum]:
    from the entries [a], [b], [c] of the symmetric matrix to the vector
    written to [*normal]. *)
Definition least_eigenvector (a b c : R) : Vector2D :=
  let df := a - c in
  let rt := sqrt (df * df + b * b * 4) in
  let cs := if Rlt_dec 0 df then df + rt else df - rt in
  let '(cs, sn) :=
    if Rlt_dec (Rabs b * 2) (Rabs cs) then
      let t := - b * 2 / cs in
      let sn := 1 / sqrt (t * t + 1) in
      (t * sn, sn)
    else if Req_dec_T (Rabs b) 0 then
      (1, 0)
    else
      let t := - cs / b / 2 in
      let cs := 1 / sqrt (t * t + 1) in
      (cs, t * cs) in
  let '(cs, sn) := if Rlt_dec 0 df then (- sn, cs) else (cs, sn) in
  mkVector2D (- sn) cs.

(** Modelled from the spec: the squared Euclidean distance by which the
    spatial index (kd_tree.h, not among the sources) ranks neighbours. *)
Definition SquaredDistance (p q : Point2D) : R :=
  (px p - px q) * (px p - px q) + (py p - py q) * (py p - py q).

(** Modelled from the spec: insertion of the point index [i] into a list
    of indices ordered by distance to the query [q] (the spatial index's
    "ordered sequence of point indices"). *)
Fixpoint insert_by_distance (points : list Point2D) (q : Point2D)
    (i : nat) (sorted : list nat) : list nat :=
  match sorted with
  | [] => [i]
  | j :: rest =>
      if Rle_dec (SquaredDistance (nth j points q) q)
                 (SquaredDistance (nth i points q) q)
      then j :: insert_by_distance points q i rest
      else i :: j :: rest
  end.

(** Modelled from the spec: all point indices of the spatial index,
    nearest to the query first. *)
Definition nearest_first (points : list Point2D) (q : Point2D) : list nat :=
  fold_left (fun sorted i => insert_by_distance points q i sorted)
            (seq 0 (length points)) [].

(** Modelled from the spec: the neighbour query of the spatial index,
    [kNearestNeighbors(query, k) -> ordered sequence of point indices], by
    exhaustive search: the [k] nearest indices. *)
Definition exhaustive_neighbor_indices (points : list Point2D)
    (q : Point2D) (k : Z) : list nat :=
  firstn (Z.to_nat k) (nearest_first points q).

(** Modelled from the spec: the overload of the neighbour query of the
    spatial index that returns the neighbour points themselves. *)
Definition exhaustive_neighbors (points : list Point2D)
    (q : Point2D) (k : Z) : list Point2D :=
  map (fun i => nth i points q) (exhaustive_neighbor_indices points q k).

(** Modelled from the spec: the weighted sum of [f] over the points, the
    numerator of a weighted mean (center_2d.h is not among the sources). *)
Definition weighted_sum (f : Point2D -> R) (points : list Point2D)
    (weights : list R) : R :=
  fold_right (fun pw acc => snd pw * f (fst pw) + acc) 0
             (combine points weights).

(** Modelled from the spec: the sum of the weights, the denominator of a
    weighted mean. *)
Definition total_weight (weights : list R) : R := fold_right Rplus 0 weights.

(** Modelled from the spec: [Centroid(points, weights)] of the header
    center_2d.h, which is not among the sources, is the weighted centroid:
    the weighted mean of the points. *)
Definition weighted_centroid (points : list Point2D) (weights : list R)
    : Point2D :=
  mkPoint2D (weighted_sum px points weights / total_weight weights)
            (weighted_sum py points weights / total_weight weights).

(** The weighted covariance matrix of the points about [center], as the
    claim words it: the symmetric matrix [[a b] [b c]] of the weighted
    second moments divided by the total weight. *)
Record Sym2 : Type := mkSym2 { s_a : R; s_b : R; s_c : R }.

Definition weighted_covariance (center : Point2D) (points : list Point2D)
    (weights : list R) : Sym2 :=
  let dx p := px p - px center in
  let dy p := py p - py center in
  let W := total_weight weights in
  {| s_a := weighted_sum (fun p => dx p * dx p) points weights / W;
     s_b := weighted_sum (fun p => dx p * dy p) points weights / W;
     s_c := weighted_sum (fun p => dy p * dy p) points weights / W |}.

(** [v] is an eigenvector of [M] for the eigenvalue [lam]. *)
Definition is_eigenvector (M : Sym2) (lam : R) (v : Vector2D) : Prop :=
  (vx v <> 0 \/ vy v <> 0) /\
  s_a M * vx v + s_b M * vy v = lam * vx v /\
  s_b M * vx v + s_c M * vy v = lam * vy v.

Definition is_eigenvalue (M : Sym2) (lam : R) : Prop :=
  exists v, is_eigenvector M lam v.

Definition smallest_eigenvalue (M : Sym2) (lam : R) : Prop :=
  is_eigenvalue M lam /\ forall mu, is_eigenvalue M mu -> lam <= mu.

(** Unit Euclidean length. *)
Definition unit_vector (v : Vector2D) : Prop := vx v * vx v + vy v * vy v = 1.

(** A KD-tree is represented by [kd_tree.points()]; [size()] is the
    length and [empty()] the emptiness of that array. *)
Abbreviation KDTree := (list Point2D) (only parsing).

(** Modelled from the spec: the contract of the neighbour query
    ("k_neighbors ≥ 1; the returned neighbor count is clamped to the
    point-cloud size"): asked for [k] neighbours with [1 <= k <= size], it
    returns [k] of them. *)
Definition returns_k_neighbors
    (FindKNearestNeighbors : KDTree -> Point2D -> Z -> list Point2D)
    (kd_tree : KDTree) : Prop :=
  forall (q : Point2D) (k : Z),
    (1 <= k <= Z.of_nat (length kd_tree))%Z ->
    length (FindKNearestNeighbors kd_tree q k) = Z.to_nat k.

(** The point [p] moved by the vector [d]. *)
Definition translate (d : Vector2D) (p : Point2D) : Point2D :=
  mkPoint2D (px p + vx d) (py p + vy d).

(** The signed distance of [p] from the line through [center] whose unit
    normal is [normal]. *)
Definition residual (normal : Vector2D) (center p : Point2D) : R :=
  vx normal * (px p - px center) + vy normal * (py p - py center).

(** The weighted sum of the squared distances of the points from that
    line. *)
Definition squared_residuals (normal : Vector2D) (center : Point2D)
    (points : list Point2D) (weights : list R) : R :=
  weighted_sum (fun p => residual normal center p * residual normal center p)
               points weights.

(** A neighbour query that, for every point of the tree, returns [k]
    valid indices among which is the index of the point itself. *)
Definition lists_own_index
    (FindKNearestNeighborIndices : KDTree -> Point2D -> Z -> list nat)
    (kd_tree : KDTree) (k : Z) : Prop :=
  forall (i : nat) (p : Point2D),
    kd_tree !! i = Some p ->
    length (FindKNearestNeighborIndices kd_tree p k) = Z.to_nat k /\
    Forall (fun j => (j < length kd_tree)%nat)
           (FindKNearestNeighborIndices kd_tree p k) /\
    In i (FindKNearestNeighborIndices kd_tree p k).

(** The array that the loop of [OrientationAwarePCAEstimateNormals] holds
    when it reaches slot [i]: the slots below [i] already hold their
    output, the other slots still hold their input. *)
Definition normals_at (i : nat) (normals out : list Vector2D)
    : list Vector2D :=
  take i out ++ drop i normals.

Section Estimator.

(** [Centroid] comes from center_2d.h and the two overloads of
    [KDTree::FindKNearestNeighbors] (neighbour points, neighbour indices)
    from kd_tree.h; neither header is among the sources, so the functions
    are parameters of the estimator. *)
Variable Centroid : list Point2D -> list R -> Point2D.
Variable FindKNearestNeighbors : KDTree -> Point2D -> Z -> list Point2D.
Variable FindKNearestNeighborIndices : KDTree -> Point2D -> Z -> list nat.

(** [PCAEstimateNormal(points, weights, normal)]; the result is the value
    written to [*normal]. *)
Definition PCAEstimateNormal (points : list Point2D) (weights : list R)
    : option Vector2D :=
  match points with
  | [] => None                                   (* assert(!points.empty()) *)
  | _ :: _ =>
      if negb (length points =? length weights)%nat then None
      else
        let centroid := Centroid points weights in
        let m := fold_left (accumulate centroid weights) points
                           (mkMoments 0 0 0 O 0) in
        if Req_dec_T (m_sum m) 0 then Some (mkVector2D 0 1)
        else
          let t := 1 / m_sum m in
          Some (least_eigenvector (m_a m * t) (m_b m * t) (m_c m * t))
  end.

(** [PCAEstimateNormal(points, normal)]: all weights are 1. *)
Definition PCAEstimateNormal_unweighted (points : list Point2D)
    : option Vector2D :=
  PCAEstimateNormal points (repeat 1 (length points)).

(** The body of the loop of [PCAEstimateNormals]. *)
Definition PCAEstimateNormals_body (kd_tree : KDTree) (k : Z)
    (i : nat) (normals : list Vector2D) : option (list Vector2D) :=
  let? p := kd_tree !! i in
  let neighbors := FindKNearestNeighbors kd_tree p k in
  let? normal := PCAEstimateNormal_unweighted neighbors in
  if (i <? length normals)%nat then Some (<[i := normal]> normals) else None.

(** [PCAEstimateNormals(kd_tree, k, normals)]; [normals] is the array the
    caller passes, the result is the array after the call. *)
Definition PCAEstimateNormals (kd_tree : KDTree) (k : Z)
    (normals : list Vector2D) : option (list Vector2D) :=
  match kd_tree with
  | [] => None                                   (* assert(!kd_tree.empty()) *)
  | _ :: _ =>
      if negb (0 <? k)%Z then None                         (* assert(k > 0) *)
      else
        let n := length kd_tree in
        let k := Z.min k (Z.of_nat n) in
        let normals := resize n default_vector normals in
        for_loop (PCAEstimateNormals_body kd_tree k) 0 n normals
  end.

(** The inner loop body of [OrientationAwarePCAEstimateNormals]. *)
Definition collect_neighbor (points : list Point2D) (normals : list Vector2D)
    (neighbors : list nat) (i j : nat) (neighbor_points : list Point2D)
    : option (list Point2D) :=
  let? ni := normals !! i in
  let? nb := neighbors !! j in
  let? nj := normals !! nb in
  if Rge_dec (dot ni nj) 0 then
    let? p := points !! nb in Some (neighbor_points ++ [p])
  else Some neighbor_points.

(** The outer loop body of [OrientationAwarePCAEstimateNormals]. *)
Definition OrientationAware_body (kd_tree : KDTree) (k : Z)
    (i : nat) (normals : list Vector2D) : option (list Vector2D) :=
  let? p := kd_tree !! i in
  let neighbors := FindKNearestNeighborIndices kd_tree p k in
  let? neighbor_points :=
    for_loop (collect_neighbor kd_tree normals neighbors i)
             0 (Z.to_nat k) [] in
  let? normal := PCAEstimateNormal_unweighted neighbor_points in
  let? ni := normals !! i in
  if Rlt_dec (dot normal ni) 0
  then Some (<[i := neg normal]> normals)
  else Some (<[i := normal]> normals).

(** [OrientationAwarePCAEstimateNormals(kd_tree, k, normals)]. *)
Definition OrientationAwarePCAEstimateNormals (kd_tree : KDTree) (k : Z)
    (normals : list Vector2D) : option (list Vector2D) :=
  match kd_tree with
  | [] => None                                   (* assert(!kd_tree.empty()) *)
  | _ :: _ =>
      if negb (0 <? k)%Z then None                         (* assert(k > 0) *)
      else if negb (length normals =? length kd_tree)%nat then None
      else
        let n := length kd_tree in
        let k := Z.min k (Z.of_nat n) in
        for_loop (OrientationAware_body kd_tree k) 0 n normals
  end.

End Estimator.

End PCA.

(* ===================================================================== *)
(** * Part II: theorems                                                   *)
(* ===================================================================== *)

Module RGB32Facts.
Import RGB32.
Local Open Scope Z_scope.

Lemma to_int_range (v : Z) : - 2 ^ 31 <= to_int v < 2 ^ 31.
Proof.
  unfold to_int.
  pose proof (Z.mod_pos_bound (v + 2 ^ 31) (2 ^ 32) ltac:(lia)). lia.
Qed.

Lemma to_int_small (v : Z) : - 2 ^ 31 <= v < 2 ^ 31 -> to_int v = v.
Proof.
  intros H. unfold to_int. rewrite Z.mod_small by lia. lia.
Qed.

(** The int constructor always builds members that fit a [uint8_t]. *)
Lemma of_int_wf (rgb : Z) : wf (of_int rgb).
Proof.
  unfold wf, uint8, of_int, to_uint8; cbn.
  repeat split; apply Z.mod_pos_bound; lia.
Qed.

(** The shifted alpha byte, after wrap-around, is a multiple of 2^24 whose
    factor is alpha read as a signed byte. *)
Lemma shl_alpha (a : Z) :
  uint8 a ->
  shl a 24 = (if a <? 128 then a else a - 256) * 2 ^ 24.
Proof.
  unfold uint8, shl, to_int. intros H. rewrite Z.shiftl_mul_pow2 by lia.
  destruct (Z.ltb_spec a 128).
  - rewrite Z.mod_small by lia. lia.
  - replace (a * 2 ^ 24 + 2 ^ 31)
      with ((a * 2 ^ 24 - 2 ^ 31) + 1 * 2 ^ 32) by lia.
    rewrite Z.mod_add by lia. rewrite Z.mod_small by lia. lia.
Qed.

Lemma shl_small (v n : Z) :
  uint8 v -> 0 <= n <= 16 -> shl v n = v * 2 ^ n.
Proof.
  unfold uint8, shl. intros H Hn. rewrite Z.shiftl_mul_pow2 by lia.
  apply to_int_small.
  assert (0 < 2 ^ n <= 2 ^ 16)
    by (split; [apply Z.pow_pos_nonneg; lia | apply Z.pow_le_mono_r; lia]).
  nia.
Qed.

(** With disjoint bit ranges, [|] is addition. *)
Lemma lor_high_low (h l k : Z) :
  0 <= k -> 0 <= l < 2 ^ k -> Z.lor (h * 2 ^ k) l = h * 2 ^ k + l.
Proof.
  intros Hk Hl. apply Z.or_to_plus.
  rewrite <- Z.shiftl_mul_pow2 by lia.
  apply Z.bits_inj'. intros i Hi.
  rewrite Z.land_spec, Z.bits_0.
  destruct (Z.ltb_spec i k).
  - rewrite Z.shiftl_spec_low by lia. reflexivity.
  - rewrite andb_comm.
    destruct (Z.eq_dec l 0) as [->|Hne]; [now rewrite Z.bits_0|].
    rewrite (Z.bits_above_log2 l i); [reflexivity | lia |].
    apply Z.log2_lt_pow2; [lia|].
    apply Z.lt_le_trans with (2 ^ k); [lia|]. apply Z.pow_le_mono_r; lia.
Qed.

(** [ToInt] as a sum of weighted bytes. *)
Lemma ToInt_sum (c : RGB32Color) :
  wf c ->
  ToInt c =
    (if alpha_ c <? 128 then alpha_ c else alpha_ c - 256) * 2 ^ 24
    + red_ c * 2 ^ 16 + green_ c * 2 ^ 8 + blue_ c.
Proof.
  intros (Hr & Hg & Hb & Ha). unfold ToInt.
  rewrite shl_alpha by assumption.
  rewrite !shl_small by (assumption || lia).
  unfold uint8 in *.
  set (a' := if alpha_ c <? 128 then alpha_ c else alpha_ c - 256).
  rewrite (lor_high_low a' (red_ c * 2 ^ 16) 24) by lia.
  replace (a' * 2 ^ 24 + red_ c * 2 ^ 16)
    with ((a' * 2 ^ 8 + red_ c) * 2 ^ 16) by lia.
  rewrite (lor_high_low _ (green_ c * 2 ^ 8) 16) by lia.
  replace ((a' * 2 ^ 8 + red_ c) * 2 ^ 16 + green_ c * 2 ^ 8)
    with ((a' * 2 ^ 16 + red_ c * 2 ^ 8 + green_ c) * 2 ^ 8) by lia.
  rewrite lor_high_low by lia. lia.
Qed.

(** The packed value fits a 32-bit [int]. *)
Lemma ToInt_range (c : RGB32Color) :
  wf c -> - 2 ^ 31 <= ToInt c < 2 ^ 31.
Proof.
  intros Hwf. rewrite ToInt_sum by assumption.
  destruct Hwf as (Hr & Hg & Hb & Ha). unfold uint8 in *.
  destruct (Z.ltb_spec (alpha_ c) 128); lia.
Qed.

(** Reading the four bytes back from the packed sum. *)
Lemma unpack_sum (a' r g b : Z) :
  -128 <= a' < 128 -> uint8 r -> uint8 g -> uint8 b ->
  let v := a' * 2 ^ 24 + r * 2 ^ 16 + g * 2 ^ 8 + b in
  to_uint8 (shr v 24) = a' mod 256 /\
  to_uint8 (Z.land (shr v 16) 255) = r /\
  to_uint8 (Z.land (shr v 8) 255) = g /\
  to_uint8 (Z.land v 255) = b.
Proof.
  intros Ha Hr Hg Hb v. unfold uint8, to_uint8, shr in *.
  change 255 with (Z.ones 8). rewrite !Z.land_ones by lia.
  rewrite !Z.shiftr_div_pow2 by lia.
  rewrite !Z.mod_mod by lia.
  assert (E24 : v / 2 ^ 24 = a').
  { symmetry. apply (Z.div_unique v (2 ^ 24) a' (r * 2 ^ 16 + g * 2 ^ 8 + b));
      [left|]; unfold v; lia. }
  assert (E16 : v / 2 ^ 16 = a' * 256 + r).
  { symmetry. apply (Z.div_unique v (2 ^ 16) _ (g * 2 ^ 8 + b));
      [left|]; unfold v; lia. }
  assert (E8 : v / 2 ^ 8 = (a' * 2 ^ 8 + r) * 256 + g).
  { symmetry. apply (Z.div_unique v (2 ^ 8) _ b); [left|]; unfold v; lia. }
  rewrite E24, E16, E8.
  repeat split.
  - rewrite Z.add_comm, Z.mod_add by lia. apply Z.mod_small; lia.
  - rewrite Z.add_comm, Z.mod_add by lia. apply Z.mod_small; lia.
  - replace v with (b + (a' * 2 ^ 16 + r * 2 ^ 8 + g) * 2 ^ 8)
      by (unfold v; lia).
    rewrite Z.mod_add by lia. apply Z.mod_small; lia.
Qed.

(** C9. Packing a colour into an [int] with [ToInt] and unpacking it with
    the int constructor gives back an equal colour (operator [==]), for
    every colour whose members are [uint8_t] values; the left shifts wrap
    modulo 2^32 and the right shifts are arithmetic. *)
Theorem ToInt_roundtrip (c : RGB32Color) :
  wf c -> eqb (of_int (ToInt c)) c = true.
Proof.
  intros Hwf. rewrite ToInt_sum by assumption.
  destruct Hwf as (Hr & Hg & Hb & Ha).
  set (a' := if alpha_ c <? 128 then alpha_ c else alpha_ c - 256).
  assert (Ha' : -128 <= a' < 128).
  { unfold a', uint8 in *. destruct (Z.ltb_spec (alpha_ c) 128); lia. }
  destruct (unpack_sum a' _ _ _ Ha' Hr Hg Hb) as (E1 & E2 & E3 & E4).
  assert (Em : a' mod 256 = alpha_ c).
  { unfold a', uint8 in *. destruct (Z.ltb_spec (alpha_ c) 128).
    - apply Z.mod_small; lia.
    - replace (alpha_ c - 256) with (alpha_ c + (-1) * 256) by lia.
      rewrite Z.mod_add by lia. apply Z.mod_small; lia. }
  unfold eqb, of_int; cbn [red_ green_ blue_ alpha_].
  rewrite E1, E2, E3, E4, Em, !Z.eqb_refl. reflexivity.
Qed.

Lemma ToInt_roundtrip_witness :
  eqb (of_int (ToInt (mkRGB32Color 255 128 7 200)))
      (mkRGB32Color 255 128 7 200) = true.
Proof.
  apply (ToInt_roundtrip (mkRGB32Color 255 128 7 200)).
  unfold wf, uint8; cbn; lia.
Defined.

(** C10. [ToGrayScale] is (11 red + 16 green + 5 blue) / 32 with integer
    division, and the value lies between 0 and 255. *)
Theorem ToGrayScale_range (c : RGB32Color) :
  wf c ->
  ToGrayScale c = (11 * red_ c + 16 * green_ c + 5 * blue_ c) / 32 /\
  0 <= ToGrayScale c <= 255.
Proof.
  unfold wf, uint8, ToGrayScale. intros (Hr & Hg & Hb & _).
  rewrite Z.quot_div_nonneg by lia.
  replace (red_ c * 11 + green_ c * 16 + blue_ c * 5)
    with (11 * red_ c + 16 * green_ c + 5 * blue_ c) by lia.
  split; [reflexivity|].
  split.
  - apply Z.div_pos; lia.
  - apply Z.div_le_upper_bound; lia.
Qed.

Lemma ToGrayScale_range_witness :
  ToGrayScale (mkRGB32Color 255 255 255 0)
    = (11 * 255 + 16 * 255 + 5 * 255) / 32 /\
  0 <= ToGrayScale (mkRGB32Color 255 255 255 0) <= 255.
Proof.
  apply (ToGrayScale_range (mkRGB32Color 255 255 255 0)).
  unfold wf, uint8; cbn; lia.
Defined.

(** *** Further properties of [RGB32Color] *)

(** Unpacking a packed colour gives the colour back, member by member. *)
Lemma of_int_ToInt (c : RGB32Color) : wf c -> of_int (ToInt c) = c.
Proof.
  intros Hwf. rewrite ToInt_sum by assumption.
  destruct Hwf as (Hr & Hg & Hb & Ha).
  set (a' := if alpha_ c <? 128 then alpha_ c else alpha_ c - 256).
  assert (Ha' : -128 <= a' < 128).
  { unfold a', uint8 in *. destruct (Z.ltb_spec (alpha_ c) 128); lia. }
  destruct (unpack_sum a' _ _ _ Ha' Hr Hg Hb) as (E1 & E2 & E3 & E4).
  assert (Em : a' mod 256 = alpha_ c).
  { unfold a', uint8 in *. destruct (Z.ltb_spec (alpha_ c) 128).
    - apply Z.mod_small; lia.
    - replace (alpha_ c - 256) with (alpha_ c + (-1) * 256) by lia.
      rewrite Z.mod_add by lia. apply Z.mod_small; lia. }
  unfold of_int. rewrite E1, E2, E3, E4, Em. destruct c; reflexivity.
Qed.

(** X1. Packing after unpacking is the identity on [int]: for every
    32-bit [int] value, [RGB32Color(rgb).ToInt()] is [rgb] again. *)
Theorem of_int_roundtrip (rgb : Z) :
  int32 rgb -> ToInt (of_int rgb) = rgb.
Proof.
  unfold int32. intros Hrange.
  rewrite ToInt_sum by apply of_int_wf.
  unfold of_int, to_uint8, shr; cbn [red_ green_ blue_ alpha_].
  change 255 with (Z.ones 8). rewrite !Z.land_ones by lia.
  rewrite !Z.shiftr_div_pow2 by lia. rewrite !Z.mod_mod by lia.
  change (2 ^ 8) with 256. change (2 ^ 16) with 65536.
  change (2 ^ 24) with 16777216. change (2 ^ 31) with 2147483648 in Hrange.
  destruct (Z.ltb_spec ((rgb / 16777216) mod 256) 128);
    Z.to_euclidean_division_equations; lia.
Qed.

Lemma of_int_roundtrip_witness : ToInt (of_int (-16711423)) = -16711423.
Proof.
  apply (of_int_roundtrip (-16711423)). unfold int32. lia.
Defined.

(** X3. Packing loses nothing: two colours with the same packed [int]
    are equal. *)
Theorem ToInt_injective (c d : RGB32Color) :
  wf c -> wf d -> ToInt c = ToInt d -> c = d.
Proof.
  intros Hc Hd E.
  rewrite <- (of_int_ToInt c Hc), <- (of_int_ToInt d Hd). now rewrite E.
Qed.

Lemma ToInt_injective_witness :
  mkRGB32Color 1 2 3 4 = mkRGB32Color 1 2 3 4.
Proof.
  apply (ToInt_injective (mkRGB32Color 1 2 3 4) (mkRGB32Color 1 2 3 4));
    try reflexivity; unfold wf, uint8; cbn; lia.
Defined.

(** X4. The packed value always fits an [int]; it is negative exactly
    when alpha is 128 or more, and a colour with alpha 0 packs to the
    plain 24-bit value red * 65536 + green * 256 + blue. *)
Theorem ToInt_sign (c : RGB32Color) :
  wf c ->
  int32 (ToInt c) /\
  (ToInt c < 0 <-> 128 <= alpha_ c) /\
  (alpha_ c = 0 ->
   ToInt c = red_ c * 65536 + green_ c * 256 + blue_ c).
Proof.
  intros Hwf. pose proof (ToInt_sum c Hwf) as E.
  destruct Hwf as (Hr & Hg & Hb & Ha). unfold uint8, int32 in *.
  destruct (Z.ltb_spec (alpha_ c) 128); rewrite E; repeat split; lia.
Qed.

Lemma ToInt_sign_witness :
  int32 (ToInt (mkRGB32Color 10 20 30 255)) /\
  (ToInt (mkRGB32Color 10 20 30 255) < 0 <-> 128 <= 255) /\
  (255 = 0 -> ToInt (mkRGB32Color 10 20 30 255) = 10 * 65536 + 20 * 256 + 30).
Proof.
  apply (ToInt_sign (mkRGB32Color 10 20 30 255)).
  unfold wf, uint8; cbn; lia.
Defined.

(** X5. The gray scale of a gray colour (red = green = blue) is that
    common value; the gray scale does not depend on alpha and grows with
    each of the three channels. *)
Theorem ToGrayScale_gray_and_monotone (c d : RGB32Color) :
  wf c -> wf d ->
  (red_ c = green_ c -> green_ c = blue_ c -> ToGrayScale c = red_ c) /\
  (forall a, ToGrayScale (mkRGB32Color (red_ c) (green_ c) (blue_ c) a)
             = ToGrayScale c) /\
  (red_ c <= red_ d -> green_ c <= green_ d -> blue_ c <= blue_ d ->
   ToGrayScale c <= ToGrayScale d).
Proof.
  unfold wf, uint8, ToGrayScale.
  intros (Hr & Hg & Hb & _) (Hr' & Hg' & Hb' & _). repeat split.
  - intros E1 E2. rewrite <- E2, <- E1.
    replace (red_ c * 11 + red_ c * 16 + red_ c * 5) with (red_ c * 32) by lia.
    apply Z.quot_mul. lia.
  - intros H1 H2 H3. rewrite !Z.quot_div_nonneg by lia.
    apply Z.div_le_mono; lia.
Qed.

Lemma ToGrayScale_gray_and_monotone_witness :
  let c := mkRGB32Color 77 77 77 9 in
  let d := mkRGB32Color 80 90 100 0 in
  (red_ c = green_ c -> green_ c = blue_ c -> ToGrayScale c = red_ c) /\
  (forall a, ToGrayScale (mkRGB32Color (red_ c) (green_ c) (blue_ c) a)
             = ToGrayScale c) /\
  (red_ c <= red_ d -> green_ c <= green_ d -> blue_ c <= blue_ d ->
   ToGrayScale c <= ToGrayScale d).
Proof.
  apply (ToGrayScale_gray_and_monotone
           (mkRGB32Color 77 77 77 9) (mkRGB32Color 80 90 100 0));
    unfold wf, uint8; cbn; lia.
Defined.

End RGB32Facts.

Module PCAFacts.
Import PCA.
Local Open Scope R_scope.

(** *** The closing part of [PCAEstimateNormal]: [least_eigenvector] *)

Lemma sqrt_square_sum (df b : R) :
  let rt := sqrt (df * df + b * b * 4) in
  0 <= rt /\ rt * rt = df * df + b * b * 4.
Proof.
  cbv zeta. split; [apply sqrt_pos|].
  apply sqrt_sqrt. nra.
Qed.

Lemma inv_sqrt_normalises (t : R) :
  let u := 1 / sqrt (t * t + 1) in
  0 < u /\ u * u * (t * t + 1) = 1.
Proof.
  cbv zeta.
  assert (Hpos : 0 < sqrt (t * t + 1)) by (apply sqrt_lt_R0; nra).
  assert (Hsq : sqrt (t * t + 1) * sqrt (t * t + 1) = t * t + 1)
    by (apply sqrt_sqrt; nra).
  split.
  - apply Rdiv_lt_0_compat; lra.
  - rewrite <- Hsq at 3. field. lra.
Qed.

(** The vector written is a unit vector, whatever the matrix. *)
Lemma least_eigenvector_unit (a b c : R) :
  unit_vector (least_eigenvector a b c).
Proof.
  unfold unit_vector, least_eigenvector.
  set (df := a - c). set (rt := sqrt (df * df + b * b * 4)).
  set (cs0 := if Rlt_dec 0 df then df + rt else df - rt).
  destruct (Rlt_dec (Rabs b * 2) (Rabs cs0)) as [Hbig|Hsmall].
  - destruct (inv_sqrt_normalises (- b * 2 / cs0)) as [Hu Hn].
    set (t := - b * 2 / cs0) in *. set (u := 1 / sqrt (t * t + 1)) in *.
    destruct (Rlt_dec 0 df); cbn [vx vy]; nra.
  - destruct (Req_dec_T (Rabs b) 0) as [Hb0|Hbn].
    + destruct (Rlt_dec 0 df); cbn [vx vy]; lra.
    + destruct (inv_sqrt_normalises (- cs0 / b / 2)) as [Hu Hn].
      set (t := - cs0 / b / 2) in *. set (u := 1 / sqrt (t * t + 1)) in *.
      destruct (Rlt_dec 0 df); cbn [vx vy]; nra.
Qed.

(** The characteristic equation: an eigenvalue of a symmetric 2x2 matrix
    annihilates the determinant of the shifted matrix. *)
Lemma eigenvalue_det (M : Sym2) (mu : R) :
  is_eigenvalue M mu ->
  (s_a M - mu) * (s_c M - mu) = s_b M * s_b M.
Proof.
  intros [v (Hnz & H1 & H2)].
  set (x := vx v) in *. set (y := vy v) in *.
  set (a := s_a M) in *. set (b := s_b M) in *. set (c := s_c M) in *.
  assert (Ex : ((a - mu) * (c - mu) - b * b) * x = 0).
  { replace (((a - mu) * (c - mu) - b * b) * x)
      with ((c - mu) * (a * x + b * y - mu * x)
            - b * (b * x + c * y - mu * y)) by ring.
    rewrite H1, H2. ring. }
  assert (Ey : ((a - mu) * (c - mu) - b * b) * y = 0).
  { replace (((a - mu) * (c - mu) - b * b) * y)
      with ((a - mu) * (b * x + c * y - mu * y)
            - b * (a * x + b * y - mu * x)) by ring.
    rewrite H1, H2. ring. }
  destruct Hnz as [Hx|Hy].
  - apply Rmult_integral in Ex. destruct Ex; [lra | contradiction].
  - apply Rmult_integral in Ey. destruct Ey; [lra | contradiction].
Qed.

(** No eigenvalue lies below (a + c - rt) / 2. *)
Lemma eigenvalue_lower_bound (M : Sym2) (mu : R) :
  is_eigenvalue M mu ->
  (s_a M + s_c M
   - sqrt ((s_a M - s_c M) * (s_a M - s_c M) + s_b M * s_b M * 4)) / 2 <= mu.
Proof.
  intros H. apply eigenvalue_det in H.
  destruct (sqrt_square_sum (s_a M - s_c M) (s_b M)) as [Hrt Hsq].
  set (rt := sqrt _) in *. nra.
Qed.

(** The vector written is an eigenvector for (a + c - rt) / 2. *)
Lemma least_eigenvector_eigen (a b c : R) :
  is_eigenvector (mkSym2 a b c)
    ((a + c - sqrt ((a - c) * (a - c) + b * b * 4)) / 2)
    (least_eigenvector a b c).
Proof.
  pose proof (least_eigenvector_unit a b c) as Hunit.
  split.
  { unfold unit_vector in Hunit.
    destruct (Req_dec_T (vx (least_eigenvector a b c)) 0) as [E|E];
      [right | left; exact E].
    rewrite E in Hunit. intros E'. rewrite E' in Hunit. lra. }
  clear Hunit. cbn [s_a s_b s_c]. unfold least_eigenvector.
  destruct (sqrt_square_sum (a - c) b) as [Hrt Hsq].
  set (df := a - c) in *. set (rt := sqrt (df * df + b * b * 4)) in *.
  set (lam := (a + c - rt) / 2).
  assert (Hb2 : Rabs b * 2 <= rt).
  { apply Rsqr_incr_0_var; [|exact Hrt].
    unfold Rsqr. pose proof (Rabs_pos b).
    replace (Rabs b * 2 * (Rabs b * 2)) with (Rabs b * Rabs b * 4) by ring.
    fold (Rsqr (Rabs b)). rewrite <- Rsqr_abs. unfold Rsqr. nra. }
  destruct (Rlt_dec 0 df) as [Hdf|Hdf].
  - (* df > 0 *)
    set (cs0 := df + rt).
    assert (Hcs0 : 0 < cs0) by (unfold cs0; lra).
    destruct (Rlt_dec (Rabs b * 2) (Rabs cs0)) as [Hbig|Hsmall].
    + destruct (inv_sqrt_normalises (- b * 2 / cs0)) as [Hu _].
      set (t := - b * 2 / cs0) in *. set (u := 1 / sqrt (t * t + 1)) in *.
      cbn [vx vy].
      assert (E1 : (a - lam) * t + b = 0).
      { unfold lam, t, cs0. fold df. field_simplify_eq; [|lra].
        unfold df. ring. }
      assert (E2 : b * t + (c - lam) = 0).
      { unfold lam, t, cs0. field_simplify_eq; [|lra].
        unfold df in *. nra. }
      split; nra.
    + exfalso. apply Hsmall. rewrite (Rabs_pos_eq cs0) by lra.
      unfold cs0. lra.
  - (* df <= 0 *)
    set (cs0 := df - rt).
    assert (Hcs0 : cs0 <= 0) by (unfold cs0; lra).
    destruct (Rlt_dec (Rabs b * 2) (Rabs cs0)) as [Hbig|Hsmall].
    + assert (Hne : cs0 <> 0).
      { intros E. rewrite E, Rabs_R0 in Hbig. pose proof (Rabs_pos b). lra. }
      destruct (inv_sqrt_normalises (- b * 2 / cs0)) as [Hu _].
      set (t := - b * 2 / cs0) in *. set (u := 1 / sqrt (t * t + 1)) in *.
      cbn [vx vy].
      assert (E1 : (lam - a) + b * t = 0).
      { unfold lam, t, cs0. field_simplify_eq; [|exact Hne].
        unfold df in *. nra. }
      assert (E2 : (c - lam) * t - b = 0).
      { unfold lam, t, cs0. field_simplify_eq; [|exact Hne].
        unfold df. ring. }
      split; nra.
    + destruct (Req_dec_T (Rabs b) 0) as [Hb0|Hbn].
      * cbn [vx vy].
        assert (Eb : b = 0).
        { destruct (Req_dec_T b 0) as [E|E]; [exact E|].
          apply Rabs_no_R0 in E. contradiction. }
        assert (Ecs : cs0 = 0).
        { rewrite Hb0 in Hsmall. pose proof (Rabs_pos cs0).
          destruct (Req_dec_T cs0 0) as [E|E]; [exact E|].
          apply Rabs_pos_lt in E. lra. }
        unfold lam. unfold cs0 in Ecs. unfold df in *. subst b. split; nra.
      * assert (Hbne : b <> 0).
        { intros E. apply Hbn. rewrite E. apply Rabs_R0. }
        destruct (inv_sqrt_normalises (- cs0 / b / 2)) as [Hu _].
        set (t := - cs0 / b / 2) in *. set (u := 1 / sqrt (t * t + 1)) in *.
        cbn [vx vy].
        assert (E1 : b - (a - lam) * t = 0).
        { unfold lam, t, cs0. field_simplify_eq; [|exact Hbne].
          unfold df in *. nra. }
        assert (E2 : (c - lam) - b * t = 0).
        { unfold lam, t, cs0. field_simplify_eq; [|exact Hbne].
          unfold df. ring. }
        split; nra.
Qed.

(** *** The accumulation loop of [PCAEstimateNormal] *)

(** Started at index [length pre] of the weights [pre ++ ws], the loop
    adds the weighted second moments of [points] under the weights [ws]. *)
Lemma accumulate_sums (centroid : Point2D) (points : list Point2D) :
  forall (ws pre : list R) (m : Moments),
    m_i m = length pre ->
    length points = length ws ->
    fold_left (accumulate centroid (pre ++ ws)) points m =
    {| m_a := m_a m + weighted_sum
                (fun p => (px p - px centroid) * (px p - px centroid))
                points ws;
       m_b := m_b m + weighted_sum
                (fun p => (px p - px centroid) * (py p - py centroid))
                points ws;
       m_c := m_c m + weighted_sum
                (fun p => (py p - py centroid) * (py p - py centroid))
                points ws;
       m_i := (m_i m + length points)%nat;
       m_sum := m_sum m + total_weight ws |}.
Proof.
  induction points as [|p points IH]; intros ws pre m Hi Hlen.
  - destruct ws; [|discriminate]. destruct m; cbn.
    f_equal; first [ring | lia].
  - destruct ws as [|w ws]; [discriminate|].
    cbn [fold_left].
    replace (pre ++ w :: ws) with ((pre ++ [w]) ++ ws)
      by (rewrite <- app_assoc; reflexivity).
    rewrite IH.
    + unfold accumulate at 1 2 3 4 5; cbn [m_a m_b m_c m_i m_sum].
      rewrite <- app_assoc; cbn [app].
      rewrite Hi, nth_middle.
      unfold weighted_sum, total_weight;
        cbn [combine fold_right fst snd length].
      f_equal; first [ring | lia].
    + unfold accumulate; cbn [m_i]. rewrite Hi, length_app; cbn. lia.
    + cbn in Hlen. lia.
Qed.

Lemma accumulate_from_zero (centroid : Point2D) (points : list Point2D)
    (weights : list R) :
  length points = length weights ->
  let m := fold_left (accumulate centroid weights) points
                     (mkMoments 0 0 0 O 0) in
  m_sum m = total_weight weights /\
  m_a m * (1 / m_sum m) = s_a (weighted_covariance centroid points weights) /\
  m_b m * (1 / m_sum m) = s_b (weighted_covariance centroid points weights) /\
  m_c m * (1 / m_sum m) = s_c (weighted_covariance centroid points weights).
Proof.
  intros Hlen m. unfold m.
  pose proof (accumulate_sums centroid points weights [] (mkMoments 0 0 0 O 0)
                eq_refl Hlen) as E.
  cbn [app] in E. rewrite E.
  cbn [m_a m_b m_c m_sum s_a s_b s_c weighted_covariance].
  rewrite !Rplus_0_l. unfold Rdiv. rewrite !Rmult_1_l. repeat split.
Qed.

(** *** Loops *)

(** Partial correctness of a loop: an invariant kept by every successful
    iteration holds when the loop returns. *)
Lemma for_loop_invariant {S : Type} (P : nat -> S -> Prop)
    (body : nat -> S -> option S) :
  forall (count start : nat) (s s' : S),
    P start s ->
    (forall i t t', (start <= i < start + count)%nat ->
                    P i t -> body i t = Some t' -> P (Datatypes.S i) t') ->
    for_loop body start count s = Some s' ->
    P (start + count)%nat s'.
Proof.
  induction count as [|count IH]; intros start s s' H0 Hstep Hrun.
  - cbn in Hrun. injection Hrun as <-. now rewrite Nat.add_0_r.
  - cbn in Hrun. destruct (body start s) as [t|] eqn:Eb; [|discriminate].
    replace (start + Datatypes.S count)%nat
      with (Datatypes.S start + count)%nat by lia.
    apply (IH (Datatypes.S start) t s'); [| |exact Hrun].
    + apply (Hstep start s t); [lia | exact H0 | exact Eb].
    + intros i u u' Hi. apply Hstep. lia.
Qed.

(** Total correctness of a loop: when every iteration started under the
    invariant succeeds and keeps it, the loop returns. *)
Lemma for_loop_total {S : Type} (P : nat -> S -> Prop)
    (body : nat -> S -> option S) :
  forall (count start : nat) (s : S),
    P start s ->
    (forall i t, (start <= i < start + count)%nat -> P i t ->
                 exists t', body i t = Some t' /\ P (Datatypes.S i) t') ->
    exists s', for_loop body start count s = Some s' /\
               P (start + count)%nat s'.
Proof.
  induction count as [|count IH]; intros start s H0 Hstep.
  - exists s. cbn. now rewrite Nat.add_0_r.
  - destruct (Hstep start s ltac:(lia) H0) as (t & Eb & Ht).
    destruct (IH (Datatypes.S start) t Ht) as (s' & Hrun & Hs').
    + intros i u Hi. apply Hstep. lia.
    + exists s'. cbn. rewrite Eb.
      replace (start + Datatypes.S count)%nat
        with (Datatypes.S start + count)%nat by lia.
      split; assumption.
Qed.

(** *** The exhaustive neighbour query meets the contract *)

Lemma insert_by_distance_length (points : list Point2D) (q : Point2D)
    (i : nat) (sorted : list nat) :
  length (insert_by_distance points q i sorted) = Datatypes.S (length sorted).
Proof.
  induction sorted as [|j rest IH]; cbn; [reflexivity|].
  destruct (Rle_dec _ _); cbn; [rewrite IH|]; reflexivity.
Qed.

Lemma nearest_first_length (points : list Point2D) (q : Point2D) :
  length (nearest_first points q) = length points.
Proof.
  unfold nearest_first.
  assert (G : forall (l acc : list nat),
             length (fold_left (fun sorted i =>
                        insert_by_distance points q i sorted) l acc)
             = (length l + length acc)%nat).
  { induction l as [|i l IH]; intros acc; cbn; [reflexivity|].
    rewrite IH, insert_by_distance_length. lia. }
  rewrite G, length_seq. cbn. lia.
Qed.

Lemma exhaustive_neighbors_contract (kd_tree : KDTree) :
  returns_k_neighbors exhaustive_neighbors kd_tree.
Proof.
  intros q k Hk. unfold exhaustive_neighbors, exhaustive_neighbor_indices.
  rewrite length_map, length_firstn, nearest_first_length. lia.
Qed.

Section EstimatorFacts.

Variable Centroid : list Point2D -> list R -> Point2D.
Variable FindKNearestNeighbors : KDTree -> Point2D -> Z -> list Point2D.
Variable FindKNearestNeighborIndices : KDTree -> Point2D -> Z -> list nat.


(** Under its two assertions [PCAEstimateNormal] returns, and what it
    writes is determined by the total weight. *)
Lemma PCAEstimateNormal_cases (points : list Point2D) (weights : list R) :
  points <> [] ->
  length points = length weights ->
  (total_weight weights = 0 /\
   PCAEstimateNormal Centroid points weights = Some (mkVector2D 0 1)) \/
  (total_weight weights <> 0 /\
   let M := weighted_covariance (Centroid points weights) points weights in
   PCAEstimateNormal Centroid points weights =
     Some (least_eigenvector (s_a M) (s_b M) (s_c M))).
Proof.
  intros Hne Hlen. unfold PCAEstimateNormal.
  destruct points as [|p points]; [contradiction|].
  rewrite Hlen, Nat.eqb_refl. cbn [negb].
  destruct (accumulate_from_zero (Centroid (p :: points) weights)
              (p :: points) weights Hlen) as (Es & Ea & Eb & Ec).
  cbv zeta in Es, Ea, Eb, Ec.
  set (m := fold_left _ _ _) in *.
  destruct (Req_dec_T (m_sum m) 0) as [E0|E0].
  - left. split; [congruence | reflexivity].
  - right. split; [congruence|]. cbv zeta. rewrite Ea, Eb, Ec. reflexivity.
Qed.

(** The assertions are the only way for the call to abort. *)
Lemma PCAEstimateNormal_Some (points : list Point2D) (weights : list R)
    (normal : Vector2D) :
  PCAEstimateNormal Centroid points weights = Some normal ->
  points <> [] /\ length points = length weights.
Proof.
  unfold PCAEstimateNormal. destruct points as [|p points]; [discriminate|].
  destruct (Nat.eqb_spec (length (p :: points)) (length weights)) as [E|E];
    cbn [negb]; [|discriminate].
  intros _. split; [discriminate | exact E].
Qed.

(** Whatever [PCAEstimateNormal] writes is a unit vector. *)
Lemma PCAEstimateNormal_unit_vector (points : list Point2D)
    (weights : list R) (normal : Vector2D) :
  PCAEstimateNormal Centroid points weights = Some normal ->
  unit_vector normal.
Proof.
  intros H. destruct (PCAEstimateNormal_Some _ _ _ H) as [Hne Hlen].
  destruct (PCAEstimateNormal_cases points weights Hne Hlen)
    as [[_ E]|[_ E]]; cbv zeta in E; rewrite E in H; injection H as <-.
  - unfold unit_vector; cbn. lra.
  - apply least_eigenvector_unit.
Qed.

(** The unit-weight overload returns on every non-empty array. *)
Lemma PCAEstimateNormal_unweighted_total (points : list Point2D) :
  points <> [] ->
  exists normal, PCAEstimateNormal_unweighted Centroid points = Some normal.
Proof.
  intros Hne. unfold PCAEstimateNormal_unweighted.
  destruct (PCAEstimateNormal_cases points (repeat 1 (length points)) Hne)
    as [[_ E]|[_ E]]; [now rewrite repeat_length | |]; eauto.
Qed.

(** What [PCAEstimateNormals] computes on an admissible input: it returns
    an array as long as the point array whose entry [i] is the normal of
    the neighbours of point [i], queried with the clamped count. *)
Lemma PCAEstimateNormals_spec (kd_tree : KDTree) (k : Z)
    (normals0 : list Vector2D) :
  kd_tree <> [] ->
  (1 <= k)%Z ->
  returns_k_neighbors FindKNearestNeighbors kd_tree ->
  exists normals,
    PCAEstimateNormals Centroid FindKNearestNeighbors kd_tree k normals0
      = Some normals /\
    length normals = length kd_tree /\
    forall (i : nat) (p : Point2D),
      kd_tree !! i = Some p ->
      exists normal,
        normals !! i = Some normal /\
        PCAEstimateNormal_unweighted Centroid
          (FindKNearestNeighbors kd_tree p
             (Z.min k (Z.of_nat (length kd_tree)))) = Some normal.
Proof.
  intros Hne Hk Hknn. unfold PCAEstimateNormals.
  destruct kd_tree as [|p0 rest] eqn:Etree; [contradiction|].
  rewrite <- Etree in *. clear Hne.
  assert (Hn : (1 <= length kd_tree)%nat) by (rewrite Etree; cbn; lia).
  destruct (Z.ltb_spec 0 k) as [_|]; [cbn [negb] | lia].
  set (n := length kd_tree) in *.
  set (k' := Z.min k (Z.of_nat n)).
  assert (Hk' : (1 <= k' <= Z.of_nat n)%Z) by (unfold k'; lia).
  pose (P := fun (j : nat) (s : list Vector2D) =>
    length s = n /\
    forall i p, (i < j)%nat -> kd_tree !! i = Some p ->
      exists normal,
        s !! i = Some normal /\
        PCAEstimateNormal_unweighted Centroid
          (FindKNearestNeighbors kd_tree p k') = Some normal).
  destruct (for_loop_total P
              (PCAEstimateNormals_body Centroid FindKNearestNeighbors
                 kd_tree k')
              n 0%nat (resize n default_vector normals0))
    as (normals & Hrun & Hlen & Hall).
  - split; [apply length_resize|]. intros i p Hi. lia.
  - intros i s Hi [Hlen IH].
    destruct (lookup_lt_is_Some_2 kd_tree i ltac:(fold n; lia)) as [p Hp].
    unfold PCAEstimateNormals_body. rewrite Hp.
    destruct (PCAEstimateNormal_unweighted_total
                (FindKNearestNeighbors kd_tree p k')) as [normal Hnormal].
    { intros E. pose proof (Hknn p k' Hk') as Hl. rewrite E in Hl.
      cbn in Hl. lia. }
    rewrite Hnormal.
    destruct (Nat.ltb_spec i (length s)) as [Hin|]; [|lia].
    eexists; split; [reflexivity|]. split; [now rewrite length_insert|].
    intros i' p' Hi' Hp'.
    destruct (Nat.eq_dec i' i) as [->|Hneq].
    + exists normal. rewrite list_lookup_insert_eq by exact Hin.
      split; [reflexivity|]. congruence.
    + rewrite list_lookup_insert_ne by congruence. apply IH; [lia | exact Hp'].
  - exists normals. split; [exact Hrun|]. split; [exact Hlen|].
    intros i p Hp. apply Hall; [|exact Hp].
    apply lookup_lt_Some in Hp. fold n in Hp. lia.
Qed.

(** C2. Whatever the input, the normal written by [PCAEstimateNormal] has
    unit Euclidean length in exact arithmetic, the zero-total-weight
    fallback included: on every input that passes the assertions the call
    returns a normal with x^2 + y^2 = 1; hence [PCAEstimateNormals]
    returns an array of unit vectors. *)
Theorem PCAEstimateNormal_unit_length (points : list Point2D)
    (weights : list R) (kd_tree : KDTree) (k : Z) (normals0 : list Vector2D) :
  points <> [] ->
  length points = length weights ->
  kd_tree <> [] ->
  (1 <= k)%Z ->
  returns_k_neighbors FindKNearestNeighbors kd_tree ->
  (exists normal,
     PCAEstimateNormal Centroid points weights = Some normal /\
     vx normal * vx normal + vy normal * vy normal = 1) /\
  (exists normals,
     PCAEstimateNormals Centroid FindKNearestNeighbors kd_tree k normals0
       = Some normals /\
     Forall unit_vector normals).
Proof.
  intros Hne Hlen Htree Hk Hknn. split.
  - destruct (PCAEstimateNormal_cases points weights Hne Hlen)
      as [[_ E]|[_ E]]; cbv zeta in E; eexists; (split; [exact E|]).
    + cbn. lra.
    + apply least_eigenvector_unit.
  - destruct (PCAEstimateNormals_spec kd_tree k normals0 Htree Hk Hknn)
      as (normals & Hrun & Hlength & Hall).
    exists normals. split; [exact Hrun|].
    apply Forall_lookup. intros i v Hv.
    destruct (lookup_lt_is_Some_2 kd_tree i) as [p Hp].
    { apply lookup_lt_Some in Hv. lia. }
    destruct (Hall i p Hp) as (normal & Hi & Hpca).
    assert (normal = v) by congruence. subst normal.
    exact (PCAEstimateNormal_unit_vector _ _ _ Hpca).
Qed.



(** C7. On a non-empty KD-tree of n points and for k >= 1,
    [PCAEstimateNormals] returns an array of exactly n normals aligned
    with the points: entry i is the PCA normal of the neighbours of point
    i, queried with the clamped count min(k, n), for every i in [0, n). *)
Theorem PCAEstimateNormals_index_aligned (kd_tree : KDTree) (k : Z)
    (normals0 : list Vector2D) :
  kd_tree <> [] ->
  (1 <= k)%Z ->
  returns_k_neighbors FindKNearestNeighbors kd_tree ->
  exists normals,
    PCAEstimateNormals Centroid FindKNearestNeighbors kd_tree k normals0
      = Some normals /\
    length normals = length kd_tree /\
    forall i, (i < length kd_tree)%nat ->
      exists p normal,
        kd_tree !! i = Some p /\
        normals !! i = Some normal /\
        PCAEstimateNormal_unweighted Centroid
          (FindKNearestNeighbors kd_tree p
             (Z.min k (Z.of_nat (length kd_tree)))) = Some normal.
Proof.
  intros Htree Hk Hknn.
  destruct (PCAEstimateNormals_spec kd_tree k normals0 Htree Hk Hknn)
    as (normals & Hrun & Hlength & Hall).
  exists normals. split; [exact Hrun|]. split; [exact Hlength|].
  intros i Hi.
  destruct (lookup_lt_is_Some_2 kd_tree i Hi) as [p Hp].
  destruct (Hall i p Hp) as (normal & Hn & Hpca).
  exists p, normal. auto.
Qed.

(** The loop of [OrientationAwarePCAEstimateNormals]: after [j] iterations
    the slots below [j] hold normals oriented like the input normals, the
    slots from [j] on still hold the input normals. *)
Lemma OrientationAware_loop (kd_tree : KDTree) (k : Z)
    (normals out : list Vector2D) (count : nat) :
  for_loop (OrientationAware_body Centroid FindKNearestNeighborIndices
              kd_tree k) 0 count normals = Some out ->
  length out = length normals /\
  (forall i, (i < count)%nat ->
     exists v0 v, normals !! i = Some v0 /\ out !! i = Some v /\
                  0 <= dot v v0) /\
  (forall i, (count <= i)%nat -> out !! i = normals !! i).
Proof.
  intros Hrun.
  apply (for_loop_invariant
           (fun j s =>
              length s = length normals /\
              (forall i, (i < j)%nat ->
                 exists v0 v, normals !! i = Some v0 /\ s !! i = Some v /\
                              0 <= dot v v0) /\
              (forall i, (j <= i)%nat -> s !! i = normals !! i))
           (OrientationAware_body Centroid FindKNearestNeighborIndices
              kd_tree k)
           count 0%nat normals out); [| |exact Hrun].
  - split; [reflexivity|]. split; [intros i Hi; lia | reflexivity].
  - intros i t t' _ (Hlen & Hlow & Hhigh) Hbody.
    unfold OrientationAware_body in Hbody.
    destruct (kd_tree !! i) as [p|]; [|discriminate].
    destruct (for_loop (collect_neighbor _ _ _ _) _ _ _)
      as [neighbor_points|]; [|discriminate].
    destruct (PCAEstimateNormal_unweighted _ _) as [normal|]; [|discriminate].
    destruct (t !! i) as [ni|] eqn:Eni; [|discriminate].
    assert (Hin : (i < length t)%nat) by (eapply lookup_lt_Some; exact Eni).
    assert (Hw : exists w, t' = <[i := w]> t /\ 0 <= dot w ni).
    { destruct (Rlt_dec (dot normal ni) 0) as [Hneg|Hpos];
        injection Hbody as <-; eexists; (split; [reflexivity|]).
      - unfold dot, neg in *; cbn [vx vy]. lra.
      - lra. }
    destruct Hw as (w & -> & Hdot).
    split; [now rewrite length_insert|]. split.
    + intros i' Hi'. destruct (Nat.eq_dec i' i) as [->|Hneq].
      * exists ni, w. rewrite <- (Hhigh i) by lia.
        rewrite list_lookup_insert_eq by exact Hin. auto.
      * rewrite list_lookup_insert_ne by congruence. apply Hlow. lia.
    + intros i' Hi'. rewrite list_lookup_insert_ne by lia. apply Hhigh. lia.
Qed.

(** C8. [OrientationAwarePCAEstimateNormals] preserves orientation: when
    the call completes (no assertion fails, so every orientation-filtered
    neighbour set passed to [PCAEstimateNormal] is non-empty), the output
    normal at every index i has a non-negative dot product with the input
    normal at i. *)
Theorem OrientationAware_preserves_orientation (kd_tree : KDTree) (k : Z)
    (normals out : list Vector2D) :
  OrientationAwarePCAEstimateNormals Centroid FindKNearestNeighborIndices
    kd_tree k normals = Some out ->
  length out = length kd_tree /\
  forall i, (i < length kd_tree)%nat ->
    exists v0 v, normals !! i = Some v0 /\ out !! i = Some v /\
                 0 <= dot v v0.
Proof.
  unfold OrientationAwarePCAEstimateNormals. intros Hrun.
  destruct kd_tree as [|p0 rest] eqn:Etree; [discriminate|].
  rewrite <- Etree in *.
  destruct (negb (0 <? k)%Z); [discriminate|].
  destruct (Nat.eqb_spec (length normals) (length kd_tree)) as [Hsize|];
    cbn [negb] in Hrun; [|discriminate].
  apply OrientationAware_loop in Hrun. destruct Hrun as (Hlen & Hlow & _).
  split; [congruence | exact Hlow].
Qed.

(** With a non-zero total weight the vector written is an eigenvector of
    the covariance matrix about [Centroid points weights], for the
    smallest eigenvalue of that matrix. *)
Lemma PCAEstimateNormal_minor_eigenvector (points : list Point2D)
    (weights : list R) :
  points <> [] ->
  length points = length weights ->
  total_weight weights <> 0 ->
  exists normal lam,
    PCAEstimateNormal Centroid points weights = Some normal /\
    let M := weighted_covariance (Centroid points weights) points weights in
    smallest_eigenvalue M lam /\ is_eigenvector M lam normal.
Proof.
  intros Hne Hlen Hw.
  destruct (PCAEstimateNormal_cases points weights Hne Hlen)
    as [[Hz _]|[_ E]]; [contradiction|].
  cbv zeta in E |- *.
  set (M := weighted_covariance (Centroid points weights) points weights) in *.
  pose proof (least_eigenvector_eigen (s_a M) (s_b M) (s_c M)) as Heig.
  replace (mkSym2 (s_a M) (s_b M) (s_c M)) with M in Heig
    by (destruct M; reflexivity).
  eexists; eexists. split; [exact E|]. split; [|exact Heig].
  split; [eexists; exact Heig|].
  intros mu Hmu. apply eigenvalue_lower_bound. exact Hmu.
Qed.

End EstimatorFacts.

(** C1. For a non-empty point list with non-negative weights of positive
    sum, the vector written by [PCAEstimateNormal] is an eigenvector of
    the weighted covariance matrix of the points about their weighted
    centroid, for the smallest eigenvalue of that matrix: the minor
    direction of the local PCA. *)
Theorem PCAEstimateNormal_minor_direction (points : list Point2D)
    (weights : list R) :
  points <> [] ->
  length points = length weights ->
  Forall (fun w => 0 <= w) weights ->
  0 < total_weight weights ->
  exists normal lam,
    PCAEstimateNormal weighted_centroid points weights = Some normal /\
    let M := weighted_covariance (weighted_centroid points weights)
               points weights in
    smallest_eigenvalue M lam /\ is_eigenvector M lam normal.
Proof.
  intros Hne Hlen _ Hpos.
  apply PCAEstimateNormal_minor_eigenvector; [assumption | assumption | lra].
Qed.

Lemma PCAEstimateNormal_minor_direction_witness :
  exists normal lam,
    PCAEstimateNormal weighted_centroid
      [mkPoint2D 0 0; mkPoint2D 2 0; mkPoint2D 1 1] [1; 1; 2] = Some normal /\
    let M := weighted_covariance
               (weighted_centroid
                  [mkPoint2D 0 0; mkPoint2D 2 0; mkPoint2D 1 1] [1; 1; 2])
               [mkPoint2D 0 0; mkPoint2D 2 0; mkPoint2D 1 1] [1; 1; 2] in
    smallest_eigenvalue M lam /\ is_eigenvector M lam normal.
Proof.
  apply (PCAEstimateNormal_minor_direction
           [mkPoint2D 0 0; mkPoint2D 2 0; mkPoint2D 1 1] [1; 1; 2]).
  - discriminate.
  - reflexivity.
  - repeat constructor; lra.
  - unfold total_weight; cbn; lra.
Defined.

Lemma PCAEstimateNormal_unit_length_witness :
  (exists normal,
     PCAEstimateNormal weighted_centroid [mkPoint2D 1 2] [0] = Some normal /\
     vx normal * vx normal + vy normal * vy normal = 1) /\
  (exists normals,
     PCAEstimateNormals weighted_centroid exhaustive_neighbors
       [mkPoint2D 0 0; mkPoint2D 1 0] 5 [] = Some normals /\
     Forall unit_vector normals).
Proof.
  apply (PCAEstimateNormal_unit_length weighted_centroid exhaustive_neighbors
           [mkPoint2D 1 2] [0] [mkPoint2D 0 0; mkPoint2D 1 0] 5 []).
  - discriminate.
  - reflexivity.
  - discriminate.
  - lia.
  - apply exhaustive_neighbors_contract.
Defined.




Lemma PCAEstimateNormals_index_aligned_witness :
  let kd_tree := [mkPoint2D 0 0; mkPoint2D 1 0] in
  exists normals,
    PCAEstimateNormals weighted_centroid exhaustive_neighbors kd_tree 3 []
      = Some normals /\
    length normals = length kd_tree /\
    forall i, (i < length kd_tree)%nat ->
      exists p normal,
        kd_tree !! i = Some p /\
        normals !! i = Some normal /\
        PCAEstimateNormal_unweighted weighted_centroid
          (exhaustive_neighbors kd_tree p
             (Z.min 3 (Z.of_nat (length kd_tree)))) = Some normal.
Proof.
  apply (PCAEstimateNormals_index_aligned weighted_centroid
           exhaustive_neighbors [mkPoint2D 0 0; mkPoint2D 1 0] 3 []).
  - discriminate.
  - lia.
  - apply exhaustive_neighbors_contract.
Defined.

(** A run on a single point: the only neighbour is the point itself, the
    covariance matrix vanishes, and the normal (0, 1) is written. *)
Lemma least_eigenvector_zero_matrix :
  least_eigenvector 0 0 0 = mkVector2D 0 1.
Proof.
  unfold least_eigenvector.
  replace (0 - 0) with 0 by lra.
  replace (0 * 0 + 0 * 0 * 4) with 0 by lra.
  rewrite sqrt_0. replace (0 - 0) with 0 by lra.
  destruct (Rlt_dec 0 0) as [H|_]; [lra|].
  rewrite Rabs_R0.
  destruct (Rlt_dec (0 * 2) 0) as [H|_]; [lra|].
  destruct (Req_dec_T 0 0) as [_|H]; [|lra].
  f_equal. lra.
Qed.

Lemma single_point_normal (p : Point2D) :
  PCAEstimateNormal_unweighted weighted_centroid [p] = Some (mkVector2D 0 1).
Proof.
  unfold PCAEstimateNormal_unweighted. cbn [length repeat].
  destruct (PCAEstimateNormal_cases weighted_centroid [p] [1])
    as [[Hz _]|[_ E]]; [discriminate | reflexivity | |].
  - unfold total_weight in Hz; cbn in Hz. lra.
  - cbv zeta in E. rewrite E. rewrite <- least_eigenvector_zero_matrix.
    unfold weighted_covariance, weighted_centroid, weighted_sum, total_weight;
      cbn [s_a s_b s_c combine fold_right fst snd px py].
    f_equal; f_equal; field.
Qed.

(** The input normal (0, -1) points away from the fitted normal (0, 1),
    which is therefore negated before it is written. *)
Lemma single_point_run :
  OrientationAwarePCAEstimateNormals weighted_centroid
    exhaustive_neighbor_indices [mkPoint2D 0 0] 1 [mkVector2D 0 (-1)]
  = Some [neg (mkVector2D 0 1)].
Proof.
  unfold OrientationAwarePCAEstimateNormals.
  cbn [length Nat.eqb negb Z.ltb Z.compare for_loop].
  change (Z.min 1 (Z.of_nat 1)) with 1%Z.
  unfold OrientationAware_body. cbn [lookup list_lookup].
  change (exhaustive_neighbor_indices [mkPoint2D 0 0] (mkPoint2D 0 0) 1)
    with [0%nat].
  change (Z.to_nat 1) with 1%nat.
  cbn [for_loop collect_neighbor lookup list_lookup].
  destruct (Rge_dec (dot (mkVector2D 0 (-1)) (mkVector2D 0 (-1))) 0) as [_|H];
    [|exfalso; apply H; unfold dot; cbn; lra].
  cbn [app]. rewrite single_point_normal.
  destruct (Rlt_dec (dot (mkVector2D 0 1) (mkVector2D 0 (-1))) 0) as [_|H];
    [|exfalso; apply H; unfold dot; cbn; lra].
  reflexivity.
Qed.

Lemma OrientationAware_preserves_orientation_witness :
  length [neg (mkVector2D 0 1)] = length [mkPoint2D 0 0] /\
  forall i, (i < length [mkPoint2D 0 0])%nat ->
    exists v0 v, [mkVector2D 0 (-1)] !! i = Some v0 /\
                 [neg (mkVector2D 0 1)] !! i = Some v /\
                 0 <= dot v v0.
Proof.
  apply (OrientationAware_preserves_orientation weighted_centroid
           exhaustive_neighbor_indices [mkPoint2D 0 0] 1
           [mkVector2D 0 (-1)] [neg (mkVector2D 0 1)]).
  exact single_point_run.
Defined.

(** *** Further properties of the estimators *)

Lemma weighted_sum_ext (f g : Point2D -> R) (points : list Point2D) :
  forall weights,
    (forall p, In p points -> f p = g p) ->
    weighted_sum f points weights = weighted_sum g points weights.
Proof.
  unfold weighted_sum.
  induction points as [|p points IH]; intros [|w ws] H; cbn; try reflexivity.
  rewrite (H p (or_introl eq_refl)). f_equal.
  apply IH. intros q Hq. apply H. now right.
Qed.

Lemma weighted_sum_map (f : Point2D -> R) (h : Point2D -> Point2D)
    (points : list Point2D) :
  forall weights,
    weighted_sum f (map h points) weights
    = weighted_sum (fun p => f (h p)) points weights.
Proof.
  unfold weighted_sum.
  induction points as [|p points IH]; intros [|w ws]; cbn; try reflexivity.
  now rewrite IH.
Qed.

Lemma weighted_sum_linear (x y z : R) (f g h : Point2D -> R)
    (points : list Point2D) :
  forall weights,
    weighted_sum (fun p => x * f p + y * g p + z * h p) points weights
    = x * weighted_sum f points weights + y * weighted_sum g points weights
      + z * weighted_sum h points weights.
Proof.
  unfold weighted_sum.
  induction points as [|p points IH]; intros [|w ws]; cbn; try ring.
  rewrite IH. ring.
Qed.

Lemma weighted_sum_scaled_weights (s : R) (f : Point2D -> R)
    (points : list Point2D) :
  forall weights,
    weighted_sum f points (map (Rmult s) weights)
    = s * weighted_sum f points weights.
Proof.
  unfold weighted_sum.
  induction points as [|p points IH]; intros [|w ws]; cbn; try ring.
  rewrite IH. ring.
Qed.

Lemma total_weight_scaled (s : R) (weights : list R) :
  total_weight (map (Rmult s) weights) = s * total_weight weights.
Proof.
  unfold total_weight. induction weights as [|w ws IH]; cbn; [ring|].
  rewrite IH. ring.
Qed.

(** A weighted sum of non-negative terms is non-negative, and when it is
    not positive every term vanishes. *)
Lemma weighted_sum_nonneg (f : Point2D -> R) (points : list Point2D) :
  forall weights,
    Forall (fun w => 0 <= w) weights ->
    (forall p, 0 <= f p) ->
    0 <= weighted_sum f points weights /\
    (weighted_sum f points weights <= 0 ->
     forall i p w, points !! i = Some p -> weights !! i = Some w ->
                   w * f p = 0).
Proof.
  unfold weighted_sum.
  induction points as [|p points IH]; intros [|w ws] Hw Hf; cbn;
    try (split; [lra | intros _ i q v Hq Hv; destruct i; discriminate]).
  inversion Hw as [|? ? Hw0 Hws]; subst.
  destruct (IH ws Hws Hf) as [Hpos Hzero].
  pose proof (Hf p) as Hfp.
  assert (0 <= w * f p) by nra.
  split; [lra|].
  intros Hle i q v Hq Hv. destruct i as [|i]; cbn in Hq, Hv.
  - injection Hq as <-. injection Hv as <-. lra.
  - apply (Hzero ltac:(lra) i q v Hq Hv).
Qed.

(** The sum of squared residuals is the quadratic form of the covariance
    matrix, times the total weight. *)
Lemma squared_residuals_quadratic (u : Vector2D) (center : Point2D)
    (points : list Point2D) (weights : list R) :
  total_weight weights <> 0 ->
  let M := weighted_covariance center points weights in
  squared_residuals u center points weights
  = total_weight weights
    * (s_a M * (vx u * vx u) + 2 * s_b M * (vx u * vy u)
       + s_c M * (vy u * vy u)).
Proof.
  intros HW M. unfold squared_residuals, residual.
  rewrite (weighted_sum_ext _
    (fun p => vx u * vx u * ((px p - px center) * (px p - px center))
              + 2 * (vx u * vy u) * ((px p - px center) * (py p - py center))
              + vy u * vy u * ((py p - py center) * (py p - py center))))
    by (intros; ring).
  rewrite weighted_sum_linear.
  unfold M, weighted_covariance; cbn [s_a s_b s_c]. field. exact HW.
Qed.

(** The quadratic form of a symmetric matrix is nowhere below its
    smallest eigenvalue times the squared length. *)
Lemma quadratic_form_lower_bound (a b c x y : R) :
  (a + c - sqrt ((a - c) * (a - c) + b * b * 4)) / 2 * (x * x + y * y)
  <= a * (x * x) + 2 * b * (x * y) + c * (y * y).
Proof.
  destruct (sqrt_square_sum (a - c) b) as [Hrt Hsq].
  set (rt := sqrt _) in *.
  set (A := (a - c + rt) / 2). set (C := (rt - (a - c)) / 2).
  assert (HA : 0 <= A).
  { unfold A. assert (Rabs (a - c) <= rt).
    { apply Rsqr_incr_0_var; [|exact Hrt]. rewrite <- Rsqr_abs.
      unfold Rsqr. nra. }
    assert (- (a - c) <= Rabs (a - c))
      by (unfold Rabs; destruct (Rcase_abs (a - c)); lra).
    lra. }
  assert (HC : 0 <= C).
  { unfold C. assert (Rabs (a - c) <= rt).
    { apply Rsqr_incr_0_var; [|exact Hrt]. rewrite <- Rsqr_abs.
      unfold Rsqr. nra. }
    pose proof (Rle_abs (a - c)). lra. }
  assert (HAC : A * C = b * b) by (unfold A, C; nra).
  assert (Goal0 : 0 <= A * (x * x) + 2 * b * (x * y) + C * (y * y)).
  { destruct (Req_dec_T A 0) as [E|E].
    - assert (b = 0) by nra. subst b. rewrite E. nra.
    - assert (0 < A) by lra.
      assert (0 <= A * (A * (x * x) + 2 * b * (x * y) + C * (y * y))).
      { replace (A * (A * (x * x) + 2 * b * (x * y) + C * (y * y)))
          with (A * A * (x * x) + 2 * A * b * (x * y) + A * C * (y * y))
          by ring.
        rewrite HAC.
        replace (A * A * (x * x) + 2 * A * b * (x * y) + b * b * (y * y))
          with ((A * x + b * y) * (A * x + b * y)) by ring.
        apply Rle_0_sqr. }
      set (Q := A * (x * x) + 2 * b * (x * y) + C * (y * y)) in *.
      destruct (Rle_dec 0 Q) as [HQ|HQ]; [exact HQ | exfalso; nra]. }
  unfold A, C in Goal0. lra.
Qed.

(** On a matrix without cross term the closing part of
    [PCAEstimateNormal] returns an axis direction. *)
Lemma least_eigenvector_diagonal (a c : R) :
  (c < a -> least_eigenvector a 0 c = mkVector2D 0 (-1)) /\
  (a < c -> least_eigenvector a 0 c = mkVector2D (-1) 0) /\
  (a = c -> least_eigenvector a 0 c = mkVector2D 0 1).
Proof.
  assert (Hrt : sqrt ((a - c) * (a - c) + 0 * 0 * 4) = Rabs (a - c)).
  { replace ((a - c) * (a - c) + 0 * 0 * 4) with (Rsqr (a - c))
      by (unfold Rsqr; ring).
    apply sqrt_Rsqr_abs. }
  assert (Hone : sqrt (0 * 0 + 1) = 1).
  { replace (0 * 0 + 1) with 1 by ring. apply sqrt_1. }
  unfold least_eigenvector. rewrite Hrt, Rabs_R0. repeat split; intros H.
  - destruct (Rlt_dec 0 (a - c)) as [Hdf|Hdf]; [|exfalso; lra].
    rewrite (Rabs_pos_eq (a - c)) by lra.
    destruct (Rlt_dec (0 * 2) (Rabs (a - c + (a - c)))) as [_|Hn].
    + replace (- 0 * 2 / (a - c + (a - c))) with 0 by (field; lra).
      rewrite Hone. f_equal; lra.
    + exfalso. apply Hn. rewrite Rabs_pos_eq by lra. lra.
  - destruct (Rlt_dec 0 (a - c)) as [Hdf|Hdf]; [exfalso; lra|].
    rewrite (Rabs_left (a - c)) by lra.
    destruct (Rlt_dec (0 * 2) (Rabs (a - c - - (a - c)))) as [_|Hn].
    + replace (- 0 * 2 / (a - c - - (a - c))) with 0 by (field; lra).
      rewrite Hone. f_equal; lra.
    + exfalso. apply Hn. rewrite Rabs_left by lra. lra.
  - assert (E : a - c = 0) by lra. rewrite !E, Rabs_R0.
    destruct (Rlt_dec 0 0) as [Hdf|_]; [exfalso; lra|].
    replace (0 - 0) with 0 by ring. rewrite Rabs_R0.
    destruct (Rlt_dec (0 * 2) 0) as [Hn|_]; [exfalso; lra|].
    destruct (Req_dec_T 0 0) as [_|Hn]; [|exfalso; lra].
    f_equal; lra.
Qed.

(** Two unit vectors with vanishing cross product are equal or opposite. *)
Lemma parallel_unit_vectors (n u : Vector2D) :
  unit_vector n -> unit_vector u ->
  vx n * vy u - vy n * vx u = 0 ->
  u = n \/ u = neg n.
Proof.
  unfold unit_vector, neg. destruct n as [nx ny], u as [ux uy]; cbn [vx vy].
  intros Hn Hu Hcross.
  assert (Hdot : (nx * ux + ny * uy) * (nx * ux + ny * uy) = 1).
  { replace ((nx * ux + ny * uy) * (nx * ux + ny * uy))
      with ((nx * nx + ny * ny) * (ux * ux + uy * uy)
            - (nx * uy - ny * ux) * (nx * uy - ny * ux)) by ring.
    rewrite Hn, Hu, Hcross. ring. }
  assert (Hpm : nx * ux + ny * uy = 1 \/ nx * ux + ny * uy = -1).
  { destruct (Rle_dec 0 (nx * ux + ny * uy)); [left | right]; nra. }
  destruct Hpm as [Hp|Hm]; [left | right].
  - assert (Ex : Rsqr (ux - nx) + Rsqr (uy - ny) = 0) by (unfold Rsqr; nra).
    apply Rplus_sqr_eq_0 in Ex. destruct Ex. f_equal; lra.
  - assert (Ex : Rsqr (ux + nx) + Rsqr (uy + ny) = 0) by (unfold Rsqr; nra).
    apply Rplus_sqr_eq_0 in Ex. destruct Ex. f_equal; lra.
Qed.

(** When the matrix is not a multiple of the identity, a unit vector at
    which the quadratic form is not above the smallest eigenvalue is the
    vector written, or its opposite. *)
Lemma least_eigenvector_unique (a b c : R) (u : Vector2D) :
  a <> c \/ b <> 0 ->
  unit_vector u ->
  a * (vx u * vx u) + 2 * b * (vx u * vy u) + c * (vy u * vy u)
    <= (a + c - sqrt ((a - c) * (a - c) + b * b * 4)) / 2 ->
  u = least_eigenvector a b c \/ u = neg (least_eigenvector a b c).
Proof.
  intros Hgen Hu Hq.
  pose proof (least_eigenvector_unit a b c) as Hn.
  destruct (least_eigenvector_eigen a b c) as (_ & E1 & E2).
  cbn [s_a s_b s_c] in E1, E2.
  pose proof (quadratic_form_lower_bound a b c (vx u) (vy u)) as Hlow.
  destruct (sqrt_square_sum (a - c) b) as [Hrt Hsq].
  set (rt := sqrt ((a - c) * (a - c) + b * b * 4)) in *.
  set (n := least_eigenvector a b c) in *.
  set (A := (a - c + rt) / 2). set (C := (rt - (a - c)) / 2).
  assert (Hrtpos : 0 < rt).
  { destruct (Rle_dec rt 0) as [Hle|Hgt]; [|lra].
    assert (rt = 0) by lra. exfalso.
    assert (Hz : Rsqr (a - c) + Rsqr (2 * b) = 0) by (unfold Rsqr; nra).
    apply Rplus_sqr_eq_0 in Hz. destruct Hz as [Hz1 Hz2].
    destruct Hgen as [Hac|Hb]; [apply Hac | apply Hb]; lra. }
  assert (HAC : A * C = b * b) by (unfold A, C; nra).
  assert (HsumAC : A + C = rt) by (unfold A, C; lra).
  unfold unit_vector in Hu, Hn.
  (* the eigenvector equations of the written vector *)
  assert (N1 : A * vx n + b * vy n = 0) by (unfold A; lra).
  assert (N2 : b * vx n + C * vy n = 0) by (unfold C; lra).
  (* the quadratic form of the shifted matrix vanishes at [u] *)
  assert (Q0 : A * (vx u * vx u) + 2 * b * (vx u * vy u)
               + C * (vy u * vy u) = 0).
  { replace (A * (vx u * vx u) + 2 * b * (vx u * vy u) + C * (vy u * vy u))
      with (a * (vx u * vx u) + 2 * b * (vx u * vy u) + c * (vy u * vy u)
            - (a + c - rt) / 2 * (vx u * vx u + vy u * vy u))
      by (unfold A, C; field).
    rewrite Hu in Hlow |- *. lra. }
  assert (U1 : A * vx u + b * vy u = 0).
  { assert (Hs : (A * vx u + b * vy u) * (A * vx u + b * vy u) = 0).
    { replace ((A * vx u + b * vy u) * (A * vx u + b * vy u))
        with (A * (A * (vx u * vx u) + 2 * b * (vx u * vy u))
              + b * b * (vy u * vy u)) by ring.
      rewrite <- HAC.
      replace (A * (A * (vx u * vx u) + 2 * b * (vx u * vy u))
               + A * C * (vy u * vy u))
        with (A * (A * (vx u * vx u) + 2 * b * (vx u * vy u)
                   + C * (vy u * vy u))) by ring.
      rewrite Q0. ring. }
    apply Rmult_integral in Hs. destruct Hs; assumption. }
  assert (U2 : b * vx u + C * vy u = 0).
  { assert (Hs : (b * vx u + C * vy u) * (b * vx u + C * vy u) = 0).
    { replace ((b * vx u + C * vy u) * (b * vx u + C * vy u))
        with (b * b * (vx u * vx u)
              + C * (2 * b * (vx u * vy u) + C * (vy u * vy u))) by ring.
      rewrite <- HAC.
      replace (A * C * (vx u * vx u)
               + C * (2 * b * (vx u * vy u) + C * (vy u * vy u)))
        with (C * (A * (vx u * vx u) + 2 * b * (vx u * vy u)
                   + C * (vy u * vy u))) by ring.
      rewrite Q0. ring. }
    apply Rmult_integral in Hs. destruct Hs; assumption. }
  apply parallel_unit_vectors; [exact Hn | exact Hu |].
  assert (Hc : rt * (vx n * vy u - vy n * vx u) = 0).
  { rewrite <- HsumAC.
    replace ((A + C) * (vx n * vy u - vy n * vx u))
      with (vy u * (A * vx n + b * vy n) - vy n * (A * vx u + b * vy u)
            + vx n * (b * vx u + C * vy u) - vx u * (b * vx n + C * vy n))
      by ring.
    rewrite N1, N2, U1, U2. ring. }
  apply Rmult_integral in Hc. destruct Hc; [lra | assumption].
Qed.

Section EstimatorProperties.

Variable Centroid : list Point2D -> list R -> Point2D.
Variable FindKNearestNeighbors : KDTree -> Point2D -> Z -> list Point2D.
Variable FindKNearestNeighborIndices : KDTree -> Point2D -> Z -> list nat.

Lemma PCAEstimateNormal_None (points : list Point2D) (weights : list R) :
  PCAEstimateNormal Centroid points weights = None <->
  points = [] \/ length points <> length weights.
Proof.
  split.
  - intros Hnone. destruct points as [|p points]; [now left|]. right.
    intros Hlen.
    destruct (PCAEstimateNormal_cases Centroid (p :: points) weights)
      as [[_ E]|[_ E]]; try discriminate; try exact Hlen;
      cbv zeta in E; congruence.
  - intros H.
    destruct (PCAEstimateNormal Centroid points weights) as [normal|] eqn:E;
      [|reflexivity].
    apply PCAEstimateNormal_Some in E. destruct E as [Hne Hlen].
    destruct H; contradiction.
Qed.

(** The written normal minimises the weighted sum of squared residuals
    among all unit vectors. *)
Lemma PCAEstimateNormal_minimises (points : list Point2D)
    (weights : list R) :
  points <> [] ->
  length points = length weights ->
  0 < total_weight weights ->
  exists normal,
    PCAEstimateNormal Centroid points weights = Some normal /\
    forall u, unit_vector u ->
      squared_residuals normal (Centroid points weights) points weights
      <= squared_residuals u (Centroid points weights) points weights.
Proof.
  intros Hne Hlen HW.
  destruct (PCAEstimateNormal_cases Centroid points weights Hne Hlen)
    as [[Hz _]|[Hnz E]]; [lra|].
  cbv zeta in E.
  set (M := weighted_covariance (Centroid points weights) points weights) in *.
  eexists. split; [exact E|]. intros u Hu.
  rewrite !squared_residuals_quadratic by exact Hnz. fold M.
  pose proof (least_eigenvector_unit (s_a M) (s_b M) (s_c M)) as Hunit.
  destruct (least_eigenvector_eigen (s_a M) (s_b M) (s_c M))
    as (_ & E1 & E2).
  cbn [s_a s_b s_c] in E1, E2.
  pose proof (quadratic_form_lower_bound (s_a M) (s_b M) (s_c M)
                (vx u) (vy u)) as Hlow.
  unfold unit_vector in Hu, Hunit.
  set (n := least_eigenvector (s_a M) (s_b M) (s_c M)) in *.
  set (lam := (s_a M + s_c M
               - sqrt ((s_a M - s_c M) * (s_a M - s_c M)
                       + s_b M * s_b M * 4)) / 2) in *.
  assert (En : s_a M * (vx n * vx n) + 2 * s_b M * (vx n * vy n)
               + s_c M * (vy n * vy n) = lam).
  { replace (s_a M * (vx n * vx n) + 2 * s_b M * (vx n * vy n)
             + s_c M * (vy n * vy n))
      with (vx n * (s_a M * vx n + s_b M * vy n)
            + vy n * (s_b M * vx n + s_c M * vy n)) by ring.
    rewrite E1, E2.
    replace (vx n * (lam * vx n) + vy n * (lam * vy n))
      with (lam * (vx n * vx n + vy n * vy n)) by ring.
    rewrite Hunit. ring. }
  rewrite En. rewrite Hu in Hlow.
  apply Rmult_le_compat_l; lra.
Qed.

(** X8. Least squares: with a positive total weight, the normal written
    by [PCAEstimateNormal] minimises, among all unit vectors, the weighted
    sum of the squared distances of the points from the line through the
    centroid. *)
Theorem PCAEstimateNormal_least_squares (points : list Point2D)
    (weights : list R) :
  points <> [] ->
  length points = length weights ->
  0 < total_weight weights ->
  exists normal,
    PCAEstimateNormal Centroid points weights = Some normal /\
    forall u, unit_vector u ->
      squared_residuals normal (Centroid points weights) points weights
      <= squared_residuals u (Centroid points weights) points weights.
Proof. exact (PCAEstimateNormal_minimises points weights). Qed.

(** X9. Collinear points are fitted exactly: when every point lies on the
    line through the centroid with unit direction [u] (non-negative
    weights of positive sum), every point of positive weight lies on the
    line through the centroid orthogonal to the written normal. *)
Theorem PCAEstimateNormal_collinear (points : list Point2D)
    (weights : list R) (u : Vector2D) :
  points <> [] ->
  length points = length weights ->
  Forall (fun w => 0 <= w) weights ->
  0 < total_weight weights ->
  unit_vector u ->
  (forall p, In p points ->
     exists t, px p - px (Centroid points weights) = t * vx u /\
               py p - py (Centroid points weights) = t * vy u) ->
  exists normal,
    PCAEstimateNormal Centroid points weights = Some normal /\
    forall i p w,
      points !! i = Some p -> weights !! i = Some w -> 0 < w ->
      residual normal (Centroid points weights) p = 0.
Proof.
  intros Hne Hlen Hw HW Hu Hline.
  destruct (PCAEstimateNormal_minimises points weights Hne Hlen HW)
    as (normal & Hrun & Hmin).
  exists normal. split; [exact Hrun|].
  set (c := Centroid points weights) in *.
  assert (Hperp : unit_vector (mkVector2D (- vy u) (vx u))).
  { unfold unit_vector in *; cbn. lra. }
  assert (Hzero : squared_residuals (mkVector2D (- vy u) (vx u)) c
                    points weights = 0).
  { unfold squared_residuals.
    rewrite (weighted_sum_ext _
               (fun p => 0 * px p + 0 * px p + 0 * px p)).
    - rewrite weighted_sum_linear. ring.
    - intros p Hp. destruct (Hline p Hp) as (t & Ex & Ey).
      unfold residual; cbn [vx vy]. rewrite Ex, Ey. ring. }
  pose proof (Hmin _ Hperp) as Hle. rewrite Hzero in Hle.
  destruct (weighted_sum_nonneg
              (fun p => residual normal c p * residual normal c p)
              points weights Hw) as [_ Hterms].
  { intros p. apply Rle_0_sqr. }
  intros i p w Hp Hwi Hpos.
  pose proof (Hterms Hle i p w Hp Hwi) as Hterm. cbv beta in Hterm.
  apply Rmult_integral in Hterm. destruct Hterm as [Hterm|Hterm]; [lra|].
  apply Rmult_integral in Hterm. destruct Hterm; assumption.
Qed.

(** The value written on an admissible input, in one expression. *)
Lemma PCAEstimateNormal_value (points : list Point2D) (weights : list R) :
  points <> [] ->
  length points = length weights ->
  PCAEstimateNormal Centroid points weights =
  Some (if Req_dec_T (total_weight weights) 0 then mkVector2D 0 1
        else let M := weighted_covariance (Centroid points weights)
                        points weights in
             least_eigenvector (s_a M) (s_b M) (s_c M)).
Proof.
  intros Hne Hlen.
  destruct (PCAEstimateNormal_cases Centroid points weights Hne Hlen)
    as [[Hz E]|[Hnz E]]; cbv zeta in E; rewrite E;
    destruct (Req_dec_T (total_weight weights) 0); try contradiction;
    reflexivity.
Qed.

Lemma weighted_covariance_translate (d : Vector2D) (center : Point2D)
    (points : list Point2D) (weights : list R) :
  weighted_covariance (translate d center) (map (translate d) points) weights
  = weighted_covariance center points weights.
Proof.
  unfold weighted_covariance. f_equal; unfold Rdiv; f_equal;
    rewrite weighted_sum_map; apply weighted_sum_ext; intros p _;
    unfold translate; cbn [px py]; ring.
Qed.

Lemma weighted_covariance_scaled_weights (s : R) (center : Point2D)
    (points : list Point2D) (weights : list R) :
  s <> 0 -> total_weight weights <> 0 ->
  weighted_covariance center points (map (Rmult s) weights)
  = weighted_covariance center points weights.
Proof.
  intros Hs HW. unfold weighted_covariance.
  rewrite !weighted_sum_scaled_weights, total_weight_scaled.
  f_equal; field; split; assumption.
Qed.

(** X10. Axis-aligned spread: when the covariance matrix has no cross
    term, [PCAEstimateNormal] writes an axis direction: (0, -1) when the
    spread along x is the larger one, (-1, 0) when the spread along y is
    the larger one, and (0, 1) when the two are equal. *)
Theorem PCAEstimateNormal_axis_aligned (points : list Point2D)
    (weights : list R) :
  points <> [] ->
  length points = length weights ->
  total_weight weights <> 0 ->
  s_b (weighted_covariance (Centroid points weights) points weights) = 0 ->
  let M := weighted_covariance (Centroid points weights) points weights in
  (s_c M < s_a M ->
   PCAEstimateNormal Centroid points weights = Some (mkVector2D 0 (-1))) /\
  (s_a M < s_c M ->
   PCAEstimateNormal Centroid points weights = Some (mkVector2D (-1) 0)) /\
  (s_a M = s_c M ->
   PCAEstimateNormal Centroid points weights = Some (mkVector2D 0 1)).
Proof.
  intros Hne Hlen HW Hb M.
  rewrite (PCAEstimateNormal_value points weights Hne Hlen).
  destruct (Req_dec_T (total_weight weights) 0); [contradiction|].
  cbv zeta. fold M. fold M in Hb. rewrite Hb.
  destruct (least_eigenvector_diagonal (s_a M) (s_c M)) as (H1 & H2 & H3).
  repeat split; intros H; f_equal; auto.
Qed.

(** X11. The normal does not depend on the origin of the coordinates:
    when the centroid moves with the points, [PCAEstimateNormal] gives the
    same result on the translated points. *)
Theorem PCAEstimateNormal_translation (points : list Point2D)
    (weights : list R) (d : Vector2D) :
  Centroid (map (translate d) points) weights
    = translate d (Centroid points weights) ->
  PCAEstimateNormal Centroid (map (translate d) points) weights
  = PCAEstimateNormal Centroid points weights.
Proof.
  intros Hc.
  destruct points as [|p points]; [reflexivity|].
  destruct (Nat.eq_dec (length (p :: points)) (length weights)) as [Hlen|Hlen].
  - rewrite !PCAEstimateNormal_value;
      rewrite ?length_map; try assumption; try discriminate.
    rewrite Hc, weighted_covariance_translate. reflexivity.
  - transitivity (@None Vector2D); [|symmetry];
      apply PCAEstimateNormal_None; right;
      rewrite ?length_map; exact Hlen.
Qed.

(** X12. Only the proportions of the weights matter: multiplying every
    weight by the same non-zero factor, when it leaves the centroid in
    place, leaves the result of [PCAEstimateNormal] unchanged. *)
Theorem PCAEstimateNormal_weight_scaling (points : list Point2D)
    (weights : list R) (s : R) :
  s <> 0 ->
  Centroid points (map (Rmult s) weights) = Centroid points weights ->
  PCAEstimateNormal Centroid points (map (Rmult s) weights)
  = PCAEstimateNormal Centroid points weights.
Proof.
  intros Hs Hc.
  destruct points as [|p points]; [reflexivity|].
  destruct (Nat.eq_dec (length (p :: points)) (length weights)) as [Hlen|Hlen].
  - rewrite !PCAEstimateNormal_value;
      rewrite ?length_map; try assumption; try discriminate.
    rewrite Hc, total_weight_scaled.
    destruct (Req_dec_T (s * total_weight weights) 0) as [E|E];
      destruct (Req_dec_T (total_weight weights) 0) as [E'|E'];
      try reflexivity.
    + exfalso. apply Rmult_integral in E. destruct E; contradiction.
    + exfalso. apply E. rewrite E'. ring.
    + rewrite weighted_covariance_scaled_weights by assumption. reflexivity.
  - transitivity (@None Vector2D); [|symmetry];
      apply PCAEstimateNormal_None; right;
      rewrite ?length_map; exact Hlen.
Qed.

(** X13. A degenerate neighbourhood gives the default normal: when all
    the points coincide with the centroid, [PCAEstimateNormal] writes
    (0, 1), as in the zero-weight fallback. *)
Theorem PCAEstimateNormal_coincident_points (points : list Point2D)
    (weights : list R) :
  points <> [] ->
  length points = length weights ->
  (forall p, In p points -> p = Centroid points weights) ->
  PCAEstimateNormal Centroid points weights = Some (mkVector2D 0 1).
Proof.
  intros Hne Hlen Hsame.
  rewrite (PCAEstimateNormal_value points weights Hne Hlen).
  destruct (Req_dec_T (total_weight weights) 0) as [_|HW]; [reflexivity|].
  cbv zeta. rewrite <- least_eigenvector_zero_matrix.
  set (c := Centroid points weights) in *.
  assert (Hzero : forall f : Point2D -> R,
            (forall p, In p points -> f p = 0) ->
            weighted_sum f points weights / total_weight weights = 0).
  { intros f Hf.
    rewrite (weighted_sum_ext f (fun p => 0 * px p + 0 * px p + 0 * px p))
      by (intros p Hp; rewrite (Hf p Hp); ring).
    rewrite weighted_sum_linear. unfold Rdiv. ring. }
  unfold weighted_covariance; cbn [s_a s_b s_c].
  rewrite !Hzero; [reflexivity | | |];
    intros p Hp; rewrite (Hsame p Hp); ring.
Qed.

(** Two runs of the loop of [PCAEstimateNormals] that overwrite every
    remaining slot end in the same array. *)
Lemma PCAEstimateNormals_loop_agree (kd_tree : KDTree) (k : Z) :
  forall (count start : nat) (s s' : list Vector2D),
    length s = length s' ->
    (forall i, (i < start)%nat -> s !! i = s' !! i) ->
    (start + count)%nat = length s ->
    for_loop (PCAEstimateNormals_body Centroid FindKNearestNeighbors
                kd_tree k) start count s
    = for_loop (PCAEstimateNormals_body Centroid FindKNearestNeighbors
                  kd_tree k) start count s'.
Proof.
  induction count as [|count IH]; intros start s s' Hlen Hlow Hend.
  - cbn. f_equal. apply list_eq. intros i.
    destruct (Nat.lt_ge_cases i start) as [Hi|Hi]; [now apply Hlow|].
    rewrite !lookup_ge_None_2 by lia. reflexivity.
  - cbn [for_loop]. unfold PCAEstimateNormals_body at 1 3.
    destruct (kd_tree !! start) as [p|]; [|reflexivity].
    destruct (PCAEstimateNormal_unweighted Centroid _) as [normal|];
      [|reflexivity].
    rewrite <- Hlen.
    destruct (Nat.ltb_spec start (length s)) as [Hin|Hout]; [|reflexivity].
    apply IH.
    + now rewrite !length_insert.
    + intros i Hi. destruct (Nat.eq_dec i start) as [->|Hneq].
      * rewrite !list_lookup_insert_eq by lia. reflexivity.
      * rewrite !list_lookup_insert_ne by congruence. apply Hlow. lia.
    + rewrite length_insert. lia.
Qed.

(** X14. The result of [PCAEstimateNormals] does not depend on what the
    output array held before the call: every slot is resized in and
    overwritten. *)
Theorem PCAEstimateNormals_ignores_previous_content (kd_tree : KDTree)
    (k : Z) (normals0 normals0' : list Vector2D) :
  PCAEstimateNormals Centroid FindKNearestNeighbors kd_tree k normals0
  = PCAEstimateNormals Centroid FindKNearestNeighbors kd_tree k normals0'.
Proof.
  unfold PCAEstimateNormals.
  destruct kd_tree as [|p0 rest] eqn:Etree; [reflexivity|].
  rewrite <- Etree.
  destruct (negb (0 <? k)%Z); [reflexivity|].
  apply PCAEstimateNormals_loop_agree.
  - now rewrite !length_resize.
  - intros i Hi. lia.
  - now rewrite length_resize.
Qed.

(** X15. Every normal written by [OrientationAwarePCAEstimateNormals]
    has unit length, whatever the lengths of the input normals. *)
Theorem OrientationAware_unit_output (kd_tree : KDTree) (k : Z)
    (normals out : list Vector2D) :
  OrientationAwarePCAEstimateNormals Centroid FindKNearestNeighborIndices
    kd_tree k normals = Some out ->
  Forall unit_vector out.
Proof.
  unfold OrientationAwarePCAEstimateNormals. intros Hrun.
  destruct kd_tree as [|p0 rest] eqn:Etree; [discriminate|].
  rewrite <- Etree in *.
  destruct (negb (0 <? k)%Z); [discriminate|].
  destruct (Nat.eqb_spec (length normals) (length kd_tree)) as [Hsize|];
    cbn [negb] in Hrun; [|discriminate].
  set (k' := Z.min k (Z.of_nat (length kd_tree))) in *.
  assert (Hinv : length out = length normals /\
                 forall i v, (i < 0 + length kd_tree)%nat ->
                             out !! i = Some v -> unit_vector v).
  { apply (for_loop_invariant
             (fun j s => length s = length normals /\
                         forall i v, (i < j)%nat -> s !! i = Some v ->
                                     unit_vector v)
             (OrientationAware_body Centroid FindKNearestNeighborIndices
                kd_tree k')
             (length kd_tree) 0%nat normals out); [| |exact Hrun].
    - split; [reflexivity | intros i v Hi; lia].
    - intros i t t' _ (Hlen & Hlow) Hbody.
      unfold OrientationAware_body in Hbody.
      destruct (kd_tree !! i) as [p|]; [|discriminate].
      destruct (for_loop (collect_neighbor _ _ _ _) _ _ _)
        as [neighbor_points|]; [|discriminate].
      destruct (PCAEstimateNormal_unweighted _ _) as [normal|] eqn:Epca;
        [|discriminate].
      apply PCAEstimateNormal_unit_vector in Epca.
      destruct (t !! i) as [ni|] eqn:Eni; [|discriminate].
      assert (Hin : (i < length t)%nat) by (eapply lookup_lt_Some; exact Eni).
      assert (Hw : exists w, t' = <[i := w]> t /\ unit_vector w).
      { destruct (Rlt_dec (dot normal ni) 0);
          injection Hbody as <-; eexists; (split; [reflexivity|]).
        - unfold unit_vector, neg in *; cbn [vx vy]. lra.
        - exact Epca. }
      destruct Hw as (w & -> & Hunit).
      split; [now rewrite length_insert|].
      intros i' v Hi' Hv. destruct (Nat.eq_dec i' i) as [->|Hneq].
      + rewrite list_lookup_insert_eq in Hv by exact Hin. congruence.
      + rewrite list_lookup_insert_ne in Hv by congruence.
        apply (Hlow i' v); [lia | exact Hv]. }
  destruct Hinv as [Hlen Hall].
  apply Forall_lookup. intros i v Hv. apply (Hall i v); [|exact Hv].
  apply lookup_lt_Some in Hv. lia.
Qed.

(** The inner loop of [OrientationAwarePCAEstimateNormals] returns a
    non-empty point array when the neighbours of point [i] are [count]
    valid indices among which is [i] itself. *)
Lemma collect_neighbor_total (kd_tree : KDTree) (s : list Vector2D)
    (neighbors : list nat) (i count : nat) :
  length s = length kd_tree ->
  (i < length kd_tree)%nat ->
  length neighbors = count ->
  Forall (fun j => (j < length kd_tree)%nat) neighbors ->
  In i neighbors ->
  exists neighbor_points,
    for_loop (collect_neighbor kd_tree s neighbors i) 0 count []
      = Some neighbor_points /\
    neighbor_points <> [].
Proof.
  intros Hlen Hi Hcount Hvalid Hown.
  destruct (lookup_lt_is_Some_2 s i ltac:(lia)) as [ni Hni].
  destruct (for_loop_total
              (fun j acc => forall j0, (j0 < j)%nat ->
                                       neighbors !! j0 = Some i -> acc <> [])
              (collect_neighbor kd_tree s neighbors i) count 0%nat [])
    as (pts & Hrun & Hpts).
  - intros j0 Hj0. lia.
  - intros j acc Hj Hacc. unfold collect_neighbor. rewrite Hni.
    destruct (lookup_lt_is_Some_2 neighbors j ltac:(lia)) as [nb Hnb].
    rewrite Hnb.
    assert (Hnbv : (nb < length kd_tree)%nat).
    { rewrite Forall_lookup in Hvalid. exact (Hvalid j nb Hnb). }
    destruct (lookup_lt_is_Some_2 s nb ltac:(lia)) as [nj Hnj].
    destruct (lookup_lt_is_Some_2 kd_tree nb Hnbv) as [q Hq].
    rewrite Hnj.
    destruct (Rge_dec (dot ni nj) 0) as [Hge|Hlt].
    + rewrite Hq. eexists. split; [reflexivity|].
      intros j0 _ _ E. destruct acc; discriminate E.
    + eexists. split; [reflexivity|].
      intros j0 Hj0 Hj0i.
      destruct (Nat.eq_dec j0 j) as [->|Hneq]; [|apply (Hacc j0); [lia|auto]].
      exfalso. apply Hlt.
      assert (nb = i) by congruence. subst nb.
      assert (nj = ni) by congruence. subst nj.
      unfold dot. nra.
  - exists pts. split; [exact Hrun|].
    apply list_elem_of_In, list_elem_of_lookup in Hown.
    destruct Hown as [j0 Hj0].
    apply (Hpts j0); [|exact Hj0].
    apply lookup_lt_Some in Hj0. lia.
Qed.

(** The run returns when each point is listed among its own neighbours. *)
Lemma OrientationAware_returns (kd_tree : KDTree) (k : Z)
    (normals : list Vector2D) :
  kd_tree <> [] ->
  (1 <= k)%Z ->
  length normals = length kd_tree ->
  lists_own_index FindKNearestNeighborIndices kd_tree
    (Z.min k (Z.of_nat (length kd_tree))) ->
  exists out,
    OrientationAwarePCAEstimateNormals Centroid FindKNearestNeighborIndices
      kd_tree k normals = Some out /\
    length out = length kd_tree.
Proof.
  intros Hne Hk Hsize Hown. unfold OrientationAwarePCAEstimateNormals.
  destruct kd_tree as [|p0 rest] eqn:Etree; [contradiction|].
  rewrite <- Etree in *. clear Hne.
  destruct (Z.ltb_spec 0 k) as [_|]; [cbn [negb] | lia].
  rewrite Hsize, Nat.eqb_refl. cbn [negb].
  set (k' := Z.min k (Z.of_nat (length kd_tree))) in *.
  destruct (for_loop_total
              (fun (_ : nat) (s : list Vector2D) =>
                 length s = length kd_tree)
              (OrientationAware_body Centroid FindKNearestNeighborIndices
                 kd_tree k')
              (length kd_tree) 0%nat normals Hsize)
    as (out & Hrun & Hlen); [|exists out; split; assumption].
  intros i s Hi Hlen.
  destruct (lookup_lt_is_Some_2 kd_tree i ltac:(lia)) as [p Hp].
  destruct (Hown i p Hp) as (Hcount & Hvalid & Hself).
  unfold OrientationAware_body. rewrite Hp.
  destruct (collect_neighbor_total kd_tree s
              (FindKNearestNeighborIndices kd_tree p k') i (Z.to_nat k')
              Hlen ltac:(lia) Hcount Hvalid Hself)
    as (pts & Hinner & Hpts).
  rewrite Hinner.
  destruct (PCAEstimateNormal_unweighted_total Centroid pts Hpts)
    as [normal Hnormal].
  rewrite Hnormal.
  destruct (lookup_lt_is_Some_2 s i ltac:(lia)) as [ni Hni]. rewrite Hni.
  destruct (Rlt_dec (dot normal ni) 0); eexists;
    (split; [reflexivity | now rewrite length_insert]).
Qed.

(** X16. [OrientationAwarePCAEstimateNormals] completes whenever its
    assertions hold and the neighbour query returns, for each point, the
    clamped number of valid indices with the point's own index among
    them: the point itself always passes the orientation filter, so no
    filtered neighbour set is empty.  The result has one normal per
    point. *)
Theorem OrientationAware_completes (kd_tree : KDTree) (k : Z)
    (normals : list Vector2D) :
  kd_tree <> [] ->
  (1 <= k)%Z ->
  length normals = length kd_tree ->
  lists_own_index FindKNearestNeighborIndices kd_tree
    (Z.min k (Z.of_nat (length kd_tree))) ->
  exists out,
    OrientationAwarePCAEstimateNormals Centroid FindKNearestNeighborIndices
      kd_tree k normals = Some out /\
    length out = length kd_tree.
Proof. exact (OrientationAware_returns kd_tree k normals). Qed.

(** X17. The normal is determined up to its sign: with a positive total
    weight and a covariance matrix that is not a multiple of the
    identity, every unit vector that does as well as the written normal
    in the least-squares sense is that normal or its opposite. *)
Theorem PCAEstimateNormal_unique_up_to_sign (points : list Point2D)
    (weights : list R) :
  points <> [] ->
  length points = length weights ->
  0 < total_weight weights ->
  (let M := weighted_covariance (Centroid points weights) points weights in
   s_a M <> s_c M \/ s_b M <> 0) ->
  exists normal,
    PCAEstimateNormal Centroid points weights = Some normal /\
    forall u, unit_vector u ->
      squared_residuals u (Centroid points weights) points weights
      <= squared_residuals normal (Centroid points weights) points weights ->
      u = normal \/ u = neg normal.
Proof.
  intros Hne Hlen HW Hgen. cbv zeta in Hgen.
  rewrite (PCAEstimateNormal_value points weights Hne Hlen).
  destruct (Req_dec_T (total_weight weights) 0) as [|Hnz]; [lra|].
  cbv zeta.
  set (M := weighted_covariance (Centroid points weights) points weights) in *.
  eexists. split; [reflexivity|]. intros u Hu Hle.
  apply least_eigenvector_unique; [exact Hgen | exact Hu |].
  rewrite !squared_residuals_quadratic in Hle by exact Hnz. fold M in Hle.
  pose proof (least_eigenvector_unit (s_a M) (s_b M) (s_c M)) as Hunit.
  destruct (least_eigenvector_eigen (s_a M) (s_b M) (s_c M))
    as (_ & E1 & E2).
  cbn [s_a s_b s_c] in E1, E2. unfold unit_vector in Hunit.
  set (n := least_eigenvector (s_a M) (s_b M) (s_c M)) in *.
  set (lam := (s_a M + s_c M
               - sqrt ((s_a M - s_c M) * (s_a M - s_c M)
                       + s_b M * s_b M * 4)) / 2) in *.
  assert (En : s_a M * (vx n * vx n) + 2 * s_b M * (vx n * vy n)
               + s_c M * (vy n * vy n) = lam).
  { replace (s_a M * (vx n * vx n) + 2 * s_b M * (vx n * vy n)
             + s_c M * (vy n * vy n))
      with (vx n * (s_a M * vx n + s_b M * vy n)
            + vy n * (s_b M * vx n + s_c M * vy n)) by ring.
    rewrite E1, E2.
    replace (vx n * (lam * vx n) + vy n * (lam * vy n))
      with (lam * (vx n * vx n + vy n * vy n)) by ring.
    rewrite Hunit. ring. }
  rewrite En in Hle.
  apply Rmult_le_reg_l with (total_weight weights); assumption.
Qed.

(** Both estimators replace [k] by min(k, n) before their loops. *)
Lemma estimators_clamp (kd_tree : KDTree) (k : Z) (normals0 : list Vector2D) :
  (1 <= length kd_tree)%nat ->
  (1 <= k)%Z ->
  PCAEstimateNormals Centroid FindKNearestNeighbors kd_tree k normals0 =
  PCAEstimateNormals Centroid FindKNearestNeighbors kd_tree
    (Z.min k (Z.of_nat (length kd_tree))) normals0 /\
  OrientationAwarePCAEstimateNormals Centroid FindKNearestNeighborIndices
    kd_tree k normals0 =
  OrientationAwarePCAEstimateNormals Centroid FindKNearestNeighborIndices
    kd_tree (Z.min k (Z.of_nat (length kd_tree))) normals0.
Proof.
  intros Hn Hk.
  unfold PCAEstimateNormals, OrientationAwarePCAEstimateNormals.
  destruct kd_tree as [|p0 rest]; [cbn in Hn; lia|].
  set (n := Z.of_nat (length (p0 :: rest))).
  assert (Hn' : (1 <= n)%Z) by (unfold n; lia).
  assert (E0 : (0 <? k)%Z = true) by (apply Z.ltb_lt; lia).
  assert (E1 : (0 <? Z.min k n)%Z = true) by (apply Z.ltb_lt; lia).
  rewrite E0, E1. replace (Z.min (Z.min k n) n) with (Z.min k n) by lia.
  split; reflexivity.
Qed.

(** An array whose slots from [i] on are those of [normals] is its own
    first [i] slots followed by the rest of [normals]. *)
Lemma normals_at_current (i : nat) (normals t : list Vector2D) :
  (forall j, (i <= j)%nat -> t !! j = normals !! j) ->
  normals_at i normals t = t.
Proof.
  intros Hhigh. unfold normals_at.
  rewrite <- (take_drop i t) at 2. f_equal.
  apply list_eq. intros j. rewrite !lookup_drop. symmetry. apply Hhigh. lia.
Qed.

(** What the loop of [OrientationAwarePCAEstimateNormals] has written
    after [count] iterations, when it was run with the neighbour count
    [k']: slot [i] holds the oriented normal of those of the first [k']
    neighbours, queried with the count [k'], that pass the orientation
    filter against the array as it stood at iteration [i]. *)
Lemma OrientationAware_loop_written (kd_tree : KDTree) (k' : Z)
    (normals out : list Vector2D) (count : nat) :
  for_loop (OrientationAware_body Centroid FindKNearestNeighborIndices
              kd_tree k') 0 count normals = Some out ->
  forall i p, (i < count)%nat -> kd_tree !! i = Some p ->
    exists neighbor_points normal ni,
      normals !! i = Some ni /\
      for_loop (collect_neighbor kd_tree (normals_at i normals out)
                  (FindKNearestNeighborIndices kd_tree p k') i)
               0 (Z.to_nat k') [] = Some neighbor_points /\
      PCAEstimateNormal_unweighted Centroid neighbor_points = Some normal /\
      out !! i = Some (if Rlt_dec (dot normal ni) 0
                       then neg normal else normal).
Proof.
  intros Hrun.
  pose (P := fun (j : nat) (s : list Vector2D) =>
    (forall i, (j <= i)%nat -> s !! i = normals !! i) /\
    forall i p, (i < j)%nat -> kd_tree !! i = Some p ->
      exists neighbor_points normal ni,
        normals !! i = Some ni /\
        for_loop (collect_neighbor kd_tree (normals_at i normals s)
                    (FindKNearestNeighborIndices kd_tree p k') i)
                 0 (Z.to_nat k') [] = Some neighbor_points /\
        PCAEstimateNormal_unweighted Centroid neighbor_points = Some normal /\
        s !! i = Some (if Rlt_dec (dot normal ni) 0
                       then neg normal else normal)).
  assert (Hend : P (0 + count)%nat out).
  { apply (for_loop_invariant P
             (OrientationAware_body Centroid FindKNearestNeighborIndices
                kd_tree k') count 0%nat normals out); [| |exact Hrun].
    - split; [reflexivity | intros i p Hi; lia].
    - intros i t t' _ (Hhigh & Hlow) Hbody.
      unfold OrientationAware_body in Hbody.
      destruct (kd_tree !! i) as [p|] eqn:Ep; [|discriminate].
      destruct (for_loop (collect_neighbor _ _ _ _) _ _ _)
        as [neighbor_points|] eqn:Einner; [|discriminate].
      destruct (PCAEstimateNormal_unweighted _ _) as [normal|] eqn:Epca;
        [|discriminate].
      destruct (t !! i) as [ni|] eqn:Eni; [|discriminate].
      assert (Hin : (i < length t)%nat) by (eapply lookup_lt_Some; exact Eni).
      assert (Ht' : t' = <[i := if Rlt_dec (dot normal ni) 0
                                then neg normal else normal]> t).
      { destruct (Rlt_dec (dot normal ni) 0); congruence. }
      clear Hbody. subst t'. split.
      + intros i' Hi'. rewrite list_lookup_insert_ne by lia. apply Hhigh. lia.
      + intros i' p' Hi' Hp'.
        assert (Etake : normals_at i' normals
                          (<[i := if Rlt_dec (dot normal ni) 0
                                  then neg normal else normal]> t)
                        = normals_at i' normals t).
        { unfold normals_at. rewrite take_insert_ge by lia. reflexivity. }
        rewrite Etake.
        destruct (Nat.eq_dec i' i) as [->|Hneq].
        * assert (p' = p) by congruence. subst p'.
          exists neighbor_points, normal, ni.
          rewrite (normals_at_current i normals t Hhigh).
          rewrite <- (Hhigh i) by lia.
          rewrite list_lookup_insert_eq by exact Hin. auto.
        * rewrite list_lookup_insert_ne by congruence.
          apply Hlow; [lia | exact Hp']. }
  destruct Hend as [_ Hlow]. exact Hlow.
Qed.

(** C6. On a KD-tree of n >= 1 points and for a requested count k >= 1,
    the neighbour count used for every point is min(k, n).  Both
    estimators give for k the result they give for min(k, n), hence for
    every k > n the result of k = n.  [PCAEstimateNormals] returns the
    normals of the neighbours queried with the count min(k, n).
    [OrientationAwarePCAEstimateNormals], when it completes, has written
    in slot i the oriented normal of those of the first min(k, n)
    neighbour indices, queried with the count min(k, n), that pass the
    orientation filter; and it completes when each point is listed among
    its own min(k, n) neighbours. *)
Theorem neighbor_count_used (kd_tree : KDTree) (k : Z)
    (normals0 : list Vector2D) :
  (1 <= length kd_tree)%nat ->
  (1 <= k)%Z ->
  returns_k_neighbors FindKNearestNeighbors kd_tree ->
  let n := Z.of_nat (length kd_tree) in
  (PCAEstimateNormals Centroid FindKNearestNeighbors kd_tree k normals0 =
   PCAEstimateNormals Centroid FindKNearestNeighbors kd_tree (Z.min k n)
     normals0 /\
   OrientationAwarePCAEstimateNormals Centroid FindKNearestNeighborIndices
     kd_tree k normals0 =
   OrientationAwarePCAEstimateNormals Centroid FindKNearestNeighborIndices
     kd_tree (Z.min k n) normals0) /\
  ((n < k)%Z ->
   PCAEstimateNormals Centroid FindKNearestNeighbors kd_tree k normals0 =
   PCAEstimateNormals Centroid FindKNearestNeighbors kd_tree n normals0 /\
   OrientationAwarePCAEstimateNormals Centroid FindKNearestNeighborIndices
     kd_tree k normals0 =
   OrientationAwarePCAEstimateNormals Centroid FindKNearestNeighborIndices
     kd_tree n normals0) /\
  (exists normals,
     PCAEstimateNormals Centroid FindKNearestNeighbors kd_tree k normals0
       = Some normals /\
     forall i p, kd_tree !! i = Some p ->
       exists normal,
         normals !! i = Some normal /\
         PCAEstimateNormal_unweighted Centroid
           (FindKNearestNeighbors kd_tree p (Z.min k n)) = Some normal) /\
  (forall out,
     OrientationAwarePCAEstimateNormals Centroid FindKNearestNeighborIndices
       kd_tree k normals0 = Some out ->
     forall i p, kd_tree !! i = Some p ->
       exists neighbor_points normal ni,
         normals0 !! i = Some ni /\
         for_loop (collect_neighbor kd_tree (normals_at i normals0 out)
                     (FindKNearestNeighborIndices kd_tree p (Z.min k n)) i)
                  0 (Z.to_nat (Z.min k n)) [] = Some neighbor_points /\
         PCAEstimateNormal_unweighted Centroid neighbor_points
           = Some normal /\
         out !! i = Some (if Rlt_dec (dot normal ni) 0
                          then neg normal else normal)) /\
  (length normals0 = length kd_tree ->
   lists_own_index FindKNearestNeighborIndices kd_tree (Z.min k n) ->
   exists out,
     OrientationAwarePCAEstimateNormals Centroid FindKNearestNeighborIndices
       kd_tree k normals0 = Some out).
Proof.
  intros Hn Hk Hknn n.
  assert (Hne : kd_tree <> []) by (intros ->; cbn in Hn; lia).
  pose proof (estimators_clamp kd_tree k normals0 Hn Hk) as Hclamp.
  fold n in Hclamp.
  split; [exact Hclamp|]. split.
  { intros Hbig. rewrite (Z.min_r k n) in Hclamp by lia. exact Hclamp. }
  split.
  { destruct (PCAEstimateNormals_spec Centroid FindKNearestNeighbors
                kd_tree k normals0 Hne Hk Hknn)
      as (normals & Hrun & _ & Hall).
    exists normals. split; [exact Hrun | exact Hall]. }
  split.
  - intros out Hrun i p Hp. clear Hclamp. subst n.
    unfold OrientationAwarePCAEstimateNormals in Hrun.
    destruct kd_tree as [|p0 rest] eqn:Etree; [discriminate|].
    rewrite <- Etree in *.
    destruct (negb (0 <? k)%Z); [discriminate|].
    destruct (negb (length normals0 =? length kd_tree)%nat); [discriminate|].
    apply (OrientationAware_loop_written kd_tree
             (Z.min k (Z.of_nat (length kd_tree))) normals0 out
             (length kd_tree) Hrun i p); [|exact Hp].
    apply lookup_lt_Some in Hp. exact Hp.
  - intros Hsize Hown.
    destruct (OrientationAware_returns kd_tree k normals0 Hne Hk Hsize Hown)
      as (out & Hrun & _).
    exists out. exact Hrun.
Qed.

End EstimatorProperties.

Lemma PCAEstimateNormal_least_squares_witness :
  let points := [mkPoint2D 0 0; mkPoint2D 2 0; mkPoint2D 1 1] in
  let weights := [1; 1; 2] in
  exists normal,
    PCAEstimateNormal weighted_centroid points weights = Some normal /\
    forall u, unit_vector u ->
      squared_residuals normal (weighted_centroid points weights)
        points weights
      <= squared_residuals u (weighted_centroid points weights)
           points weights.
Proof.
  apply (PCAEstimateNormal_least_squares weighted_centroid
           [mkPoint2D 0 0; mkPoint2D 2 0; mkPoint2D 1 1] [1; 1; 2]).
  - discriminate.
  - reflexivity.
  - unfold total_weight; cbn; lra.
Defined.

Lemma PCAEstimateNormal_collinear_witness :
  let points := [mkPoint2D 0 0; mkPoint2D 2 0; mkPoint2D 4 0] in
  let weights := [1; 1; 1] in
  exists normal,
    PCAEstimateNormal weighted_centroid points weights = Some normal /\
    forall i p w,
      points !! i = Some p -> weights !! i = Some w -> 0 < w ->
      residual normal (weighted_centroid points weights) p = 0.
Proof.
  apply (PCAEstimateNormal_collinear weighted_centroid
           [mkPoint2D 0 0; mkPoint2D 2 0; mkPoint2D 4 0] [1; 1; 1]
           (mkVector2D 1 0)).
  - discriminate.
  - reflexivity.
  - repeat constructor; lra.
  - unfold total_weight; cbn; lra.
  - unfold unit_vector; cbn; lra.
  - intros p Hp.
    exists (px p - px (weighted_centroid
                         [mkPoint2D 0 0; mkPoint2D 2 0; mkPoint2D 4 0]
                         [1; 1; 1])).
    split; [cbn [vx]; ring|].
    destruct Hp as [<-|[<-|[<-|[]]]];
      unfold weighted_centroid, weighted_sum, total_weight; cbn; field.
Defined.

Lemma PCAEstimateNormal_axis_aligned_witness :
  let points := [mkPoint2D 0 0; mkPoint2D 2 0] in
  let weights := [1; 1] in
  let M := weighted_covariance (weighted_centroid points weights)
             points weights in
  (s_c M < s_a M ->
   PCAEstimateNormal weighted_centroid points weights
   = Some (mkVector2D 0 (-1))) /\
  (s_a M < s_c M ->
   PCAEstimateNormal weighted_centroid points weights
   = Some (mkVector2D (-1) 0)) /\
  (s_a M = s_c M ->
   PCAEstimateNormal weighted_centroid points weights
   = Some (mkVector2D 0 1)).
Proof.
  apply (PCAEstimateNormal_axis_aligned weighted_centroid
           [mkPoint2D 0 0; mkPoint2D 2 0] [1; 1]).
  - discriminate.
  - reflexivity.
  - unfold total_weight; cbn; lra.
  - unfold weighted_covariance, weighted_centroid, weighted_sum,
      total_weight; cbn; field.
Defined.

Lemma PCAEstimateNormal_translation_witness :
  PCAEstimateNormal weighted_centroid
    (map (translate (mkVector2D 5 7)) [mkPoint2D 0 0; mkPoint2D 2 1]) [1; 3]
  = PCAEstimateNormal weighted_centroid [mkPoint2D 0 0; mkPoint2D 2 1] [1; 3].
Proof.
  apply (PCAEstimateNormal_translation weighted_centroid
           [mkPoint2D 0 0; mkPoint2D 2 1] [1; 3] (mkVector2D 5 7)).
  unfold weighted_centroid, weighted_sum, total_weight, translate; cbn.
  f_equal; field.
Defined.

Lemma PCAEstimateNormal_weight_scaling_witness :
  PCAEstimateNormal weighted_centroid [mkPoint2D 0 0; mkPoint2D 2 1]
    (map (Rmult 2) [1; 3])
  = PCAEstimateNormal weighted_centroid [mkPoint2D 0 0; mkPoint2D 2 1] [1; 3].
Proof.
  apply (PCAEstimateNormal_weight_scaling weighted_centroid
           [mkPoint2D 0 0; mkPoint2D 2 1] [1; 3] 2).
  - lra.
  - unfold weighted_centroid, weighted_sum, total_weight; cbn.
    f_equal; field.
Defined.

Lemma PCAEstimateNormal_coincident_points_witness :
  PCAEstimateNormal weighted_centroid [mkPoint2D 3 4; mkPoint2D 3 4] [1; 1]
  = Some (mkVector2D 0 1).
Proof.
  apply (PCAEstimateNormal_coincident_points weighted_centroid
           [mkPoint2D 3 4; mkPoint2D 3 4] [1; 1]).
  - discriminate.
  - reflexivity.
  - intros p [<-|[<-|[]]];
      unfold weighted_centroid, weighted_sum, total_weight; cbn;
      f_equal; field.
Defined.

Lemma OrientationAware_unit_output_witness :
  Forall unit_vector [neg (mkVector2D 0 1)].
Proof.
  apply (OrientationAware_unit_output weighted_centroid
           exhaustive_neighbor_indices [mkPoint2D 0 0] 1
           [mkVector2D 0 (-1)] [neg (mkVector2D 0 1)]).
  exact single_point_run.
Defined.

Lemma OrientationAware_completes_witness :
  let all_indices := fun (_ : list Point2D) (_ : Point2D) (k : Z) =>
                       seq 0 (Z.to_nat k) in
  let kd_tree := [mkPoint2D 0 0; mkPoint2D 1 0] in
  exists out,
    OrientationAwarePCAEstimateNormals weighted_centroid all_indices
      kd_tree 5 [mkVector2D 0 1; mkVector2D 3 (-4)] = Some out /\
    length out = length kd_tree.
Proof.
  apply (OrientationAware_completes weighted_centroid
           (fun _ _ k => seq 0 (Z.to_nat k))
           [mkPoint2D 0 0; mkPoint2D 1 0] 5
           [mkVector2D 0 1; mkVector2D 3 (-4)]).
  - discriminate.
  - lia.
  - reflexivity.
  - intros i p Hp.
    change (Z.min 5 (Z.of_nat (length [mkPoint2D 0 0; mkPoint2D 1 0])))
      with 2%Z.
    change (seq 0 (Z.to_nat 2)) with [0%nat; 1%nat].
    split; [reflexivity|]. split; [repeat constructor; cbn; lia|].
    destruct i as [|[|i]]; cbn in Hp; [left | right; left | discriminate Hp];
      reflexivity.
Defined.

Lemma PCAEstimateNormal_unique_up_to_sign_witness :
  let points := [mkPoint2D 0 0; mkPoint2D 2 0] in
  let weights := [1; 1] in
  exists normal,
    PCAEstimateNormal weighted_centroid points weights = Some normal /\
    forall u, unit_vector u ->
      squared_residuals u (weighted_centroid points weights) points weights
      <= squared_residuals normal (weighted_centroid points weights)
           points weights ->
      u = normal \/ u = neg normal.
Proof.
  apply (PCAEstimateNormal_unique_up_to_sign weighted_centroid
           [mkPoint2D 0 0; mkPoint2D 2 0] [1; 1]).
  - discriminate.
  - reflexivity.
  - unfold total_weight; cbn; lra.
  - cbv zeta. left.
    assert (Ea : s_a (weighted_covariance
                        (weighted_centroid [mkPoint2D 0 0; mkPoint2D 2 0]
                           [1; 1])
                        [mkPoint2D 0 0; mkPoint2D 2 0] [1; 1]) = 1)
      by (unfold weighted_covariance, weighted_centroid, weighted_sum,
            total_weight; cbn; field).
    assert (Ec : s_c (weighted_covariance
                        (weighted_centroid [mkPoint2D 0 0; mkPoint2D 2 0]
                           [1; 1])
                        [mkPoint2D 0 0; mkPoint2D 2 0] [1; 1]) = 0)
      by (unfold weighted_covariance, weighted_centroid, weighted_sum,
            total_weight; cbn; field).
    rewrite Ea, Ec. lra.
Defined.

Lemma neighbor_count_used_witness :
  let all_indices := fun (_ : list Point2D) (_ : Point2D) (k : Z) =>
                       seq 0 (Z.to_nat k) in
  let kd_tree := [mkPoint2D 0 0; mkPoint2D 1 0] in
  let normals0 := [mkVector2D 0 1; mkVector2D 3 (-4)] in
  (PCAEstimateNormals weighted_centroid exhaustive_neighbors kd_tree 7
     normals0 =
   PCAEstimateNormals weighted_centroid exhaustive_neighbors kd_tree
     (Z.min 7 2) normals0 /\
   OrientationAwarePCAEstimateNormals weighted_centroid all_indices
     kd_tree 7 normals0 =
   OrientationAwarePCAEstimateNormals weighted_centroid all_indices
     kd_tree (Z.min 7 2) normals0) /\
  ((2 < 7)%Z ->
   PCAEstimateNormals weighted_centroid exhaustive_neighbors kd_tree 7
     normals0 =
   PCAEstimateNormals weighted_centroid exhaustive_neighbors kd_tree 2
     normals0 /\
   OrientationAwarePCAEstimateNormals weighted_centroid all_indices
     kd_tree 7 normals0 =
   OrientationAwarePCAEstimateNormals weighted_centroid all_indices
     kd_tree 2 normals0) /\
  (exists normals,
     PCAEstimateNormals weighted_centroid exhaustive_neighbors kd_tree 7
       normals0 = Some normals /\
     forall i p, kd_tree !! i = Some p ->
       exists normal,
         normals !! i = Some normal /\
         PCAEstimateNormal_unweighted weighted_centroid
           (exhaustive_neighbors kd_tree p (Z.min 7 2)) = Some normal) /\
  (forall out,
     OrientationAwarePCAEstimateNormals weighted_centroid all_indices
       kd_tree 7 normals0 = Some out ->
     forall i p, kd_tree !! i = Some p ->
       exists neighbor_points normal ni,
         normals0 !! i = Some ni /\
         for_loop (collect_neighbor kd_tree (normals_at i normals0 out)
                     (all_indices kd_tree p (Z.min 7 2)) i)
                  0 (Z.to_nat (Z.min 7 2)) [] = Some neighbor_points /\
         PCAEstimateNormal_unweighted weighted_centroid neighbor_points
           = Some normal /\
         out !! i = Some (if Rlt_dec (dot normal ni) 0
                          then neg normal else normal)) /\
  (length normals0 = length kd_tree ->
   lists_own_index all_indices kd_tree (Z.min 7 2) ->
   exists out,
     OrientationAwarePCAEstimateNormals weighted_centroid all_indices
       kd_tree 7 normals0 = Some out).
Proof.
  apply (neighbor_count_used weighted_centroid exhaustive_neighbors
           (fun _ _ k => seq 0 (Z.to_nat k))
           [mkPoint2D 0 0; mkPoint2D 1 0] 7
           [mkVector2D 0 1; mkVector2D 3 (-4)]).
  - cbn; lia.
  - lia.
  - apply exhaustive_neighbors_contract.
Defined.

End PCAFacts.
